(** * Crossword CSP solver ([generate.py]): a shallow embedding

    The class [CrosswordCreator] keeps a puzzle ([self.crossword]) and a
    mutable domain store ([self.domains]); its methods enforce node and arc
    consistency and run a backtracking search over a mutable assignment
    dictionary.  The embedding below follows the methods one by one:
    - Python sets and dictionaries are lists in iteration order;
    - mutation of [self.domains] and of the assignment dictionary is a state
      monad over [State];
    - Python exceptions ([IndexError] of [word[k]], ...) are the [Raise]
      outcome of [result];
    - the [while] loop of [ac3] and the recursion of [backtrack] are given a
      budget, which is proved sufficient further down
      ([ac3_loop_enough_fuel], [backtrack_runs]).

    The puzzle module ([crossword.py]: the classes [Variable] and
    [Crossword]) is not among the sources.  Its slots, vocabulary and overlap
    table are the fields of [Crossword]; [neighbors] follows the
    specification.  The store and the overlap table are total functions:
    looking up a slot that is not in the puzzle, or the overlap of a slot
    with itself (a [KeyError] in Python), is outside the model, and the
    statements below range over the slots of the puzzle.  A Python set has
    no duplicates: [s.remove(w)] removes the one copy of [w], and is only
    called on a word that is in the set. *)

From Stdlib Require Import List String Ascii Arith Bool Lia PeanoNat Permutation Sorted.
Import ListNotations.
Open Scope string_scope.
Open Scope list_scope.
Open Scope nat_scope.

(** ** Data model *)

(** [Variable.ACROSS] and [Variable.DOWN]. *)
Inductive Direction : Type := ACROSS | DOWN.

(** A slot of the grid: the class [Variable] of the puzzle module, with its
    attributes [i], [j], [direction] and [length]. *)
Record Var : Type := mkVar {
  var_i : nat;
  var_j : nat;
  var_direction : Direction;
  var_length : nat
}.

Definition Direction_eqb (d1 d2 : Direction) : bool :=
  match d1, d2 with
  | ACROSS, ACROSS | DOWN, DOWN => true
  | _, _ => false
  end.

(** Equality of slots: all four attributes match. *)
Definition Var_eqb (x y : Var) : bool :=
  (var_i x =? var_i y) && (var_j x =? var_j y)
  && Direction_eqb (var_direction x) (var_direction y)
  && (var_length x =? var_length y).

(** The puzzle handed to the solver ([self.crossword]).  Only the attributes
    the solver reads are kept: the set of slots, the vocabulary and the table
    of overlaps ([None], or the pair of offsets at which two slots cross). *)
Record Crossword : Type := mkCrossword {
  variables : list Var;
  words : list string;
  overlaps : Var -> Var -> option (nat * nat)
}.

(** The domain store [self.domains]: the candidate words of each slot. *)
Definition Domains : Type := Var -> list string.

(** An assignment dictionary, in insertion order. *)
Definition Assignment : Type := list (Var * string).

(** The mutable state of a run: the domain store, the assignment dictionary
    that [backtrack] receives and updates in place, and a ghost counter of
    the calls to [backtrack]. *)
Record State : Type := mkState {
  domains : Domains;
  assignment : Assignment;
  backtrack_calls : nat
}.

(** ** Outcomes and the state monad *)

Inductive exn : Type := IndexError | KeyError | TypeError | ValueError.

Inductive result (A : Type) : Type :=
| Ok (a : A)
| Raise (e : exn)
| OutOfFuel.

Arguments Ok {A} a.
Arguments Raise {A} e.
Arguments OutOfFuel {A}.

Definition rbind {A B : Type} (c : result A) (k : A -> result B) : result B :=
  match c with
  | Ok a => k a
  | Raise e => Raise e
  | OutOfFuel => OutOfFuel
  end.

Definition M (A : Type) : Type := State -> result (A * State).

Definition ret {A : Type} (a : A) : M A := fun s => Ok (a, s).

Definition bind {A B : Type} (c : M A) (k : A -> M B) : M B :=
  fun s =>
    match c s with
    | Ok (a, s') => k a s'
    | Raise e => Raise e
    | OutOfFuel => OutOfFuel
    end.

Definition raise {A : Type} (e : exn) : M A := fun _ => Raise e.

Definition out_of_fuel {A : Type} : M A := fun _ => OutOfFuel.

Definition lift {A : Type} (c : result A) : M A :=
  fun s => rbind c (fun a => Ok (a, s)).

Definition gets {A : Type} (f : State -> A) : M A := fun s => Ok (f s, s).

Declare Scope monad_scope.
Delimit Scope monad_scope with monad.
Notation "x <- c ;; k" := (bind c (fun x => k))
  (at level 61, c at next level, right associativity) : monad_scope.
Notation "c ;; k" := (bind c (fun _ => k))
  (at level 61, right associativity) : monad_scope.
Notation "x <-- c ;; k" := (rbind c (fun x => k))
  (at level 61, c at next level, right associativity) : monad_scope.
Open Scope monad_scope.

(** [for a in l: body(a)]. *)
Fixpoint for_each {A : Type} (l : list A) (body : A -> M unit) : M unit :=
  match l with
  | [] => ret tt
  | a :: l' => body a ;; for_each l' body
  end.

(** ** Dictionaries and sets *)

Definition upd (d : Domains) (x : Var) (ws : list string) : Domains :=
  fun v => if Var_eqb v x then ws else d v.

(** [s.remove(w)] on a set of words. *)
Definition set_remove (w : string) (ws : list string) : list string :=
  filter (fun u => negb (String.eqb u w)) ws.

(** [self.domains[x].remove(w)]. *)
Definition remove_word (x : Var) (w : string) : M unit :=
  fun s =>
    Ok (tt, mkState (upd (domains s) x (set_remove w (domains s x)))
                    (assignment s) (backtrack_calls s)).

(** [key in a]. *)
Definition in_assignment (a : Assignment) (x : Var) : bool :=
  existsb (fun kv => Var_eqb (fst kv) x) a.

(** [a[key]], when the key is there. *)
Fixpoint lookup (a : Assignment) (x : Var) : option string :=
  match a with
  | [] => None
  | (k, w) :: a' => if Var_eqb k x then Some w else lookup a' x
  end.

(** [a[key] = w]: an existing key keeps its place, a new one goes last. *)
Fixpoint set_item (a : Assignment) (x : Var) (w : string) : Assignment :=
  match a with
  | [] => [(x, w)]
  | (k, v) :: a' =>
      if Var_eqb k x then (k, w) :: a' else (k, v) :: set_item a' x w
  end.

(** [del a[key]]. *)
Fixpoint del_item (a : Assignment) (x : Var) : result Assignment :=
  match a with
  | [] => Raise KeyError
  | (k, v) :: a' =>
      if Var_eqb k x then Ok a'
      else a'' <-- del_item a' x ;; Ok ((k, v) :: a'')
  end.

(** [l.remove(x)] on a list: the first occurrence goes, [ValueError] when
    there is none. *)
Fixpoint list_remove (x : Var) (l : list Var) : result (list Var) :=
  match l with
  | [] => Raise ValueError
  | y :: l' =>
      if Var_eqb y x then Ok l'
      else l'' <-- list_remove x l' ;; Ok (y :: l'')
  end.

(** [l.sort(key=key)]: stable, ascending. *)
Fixpoint insert_asc {A : Type} (key : A -> nat) (x : A) (l : list A) : list A :=
  match l with
  | [] => [x]
  | y :: l' => if key x <=? key y then x :: l else y :: insert_asc key x l'
  end.

Definition sort_asc {A : Type} (key : A -> nat) (l : list A) : list A :=
  fold_right (insert_asc key) [] l.

(** [l.sort(key=key, reverse=True)]: stable, descending. *)
Fixpoint insert_desc {A : Type} (key : A -> nat) (x : A) (l : list A) : list A :=
  match l with
  | [] => [x]
  | y :: l' => if key y <=? key x then x :: l else y :: insert_desc key x l'
  end.

Definition sort_desc {A : Type} (key : A -> nat) (l : list A) : list A :=
  fold_right (insert_desc key) [] l.

Section Solver.

Variable cw : Crossword.

(** Modelled from the spec: [Crossword.neighbors] is defined in the puzzle
    module, which is not part of the sources; "y is a neighbor of x iff
    overlap(x,y) is not None". *)
Definition neighbors (x : Var) : list Var :=
  filter (fun y => match overlaps cw x y with Some _ => true | None => false end)
         (variables cw).

(** [CrosswordCreator.__init__]: every slot starts with the whole vocabulary. *)
Definition init : State :=
  mkState (fun _ => words cw) [] 0.

(** ** Node consistency *)

Definition enforce_node_consistency : M unit :=
  for_each (variables cw) (fun var =>
    words <- gets (fun s => domains s var) ;;
    for_each words (fun word =>
      if negb (String.length word =? var_length var)
      then remove_word var word
      else ret tt)).

(** ** Arc consistency *)

(** The inner loop of [revise]: every word of [ywords] is indexed at [j];
    [revision] stays [True] when none of them carries [xcommon] there. *)
Fixpoint scan_ywords (xcommon : ascii) (j : nat) (ywords : list string)
    (revision : bool) : result bool :=
  match ywords with
  | [] => Ok revision
  | yword :: rest =>
      match String.get j yword with
      | Some ycommon =>
          scan_ywords xcommon j rest
            (if Ascii.eqb xcommon ycommon then false else revision)
      | None => Raise IndexError
      end
  end.

(** The outer loop of [revise] over the copy [xwords]. *)
Fixpoint revise_loop (x : Var) (overlap : nat * nat) (ywords xwords : list string)
    (atleastOneRevision : bool) : M bool :=
  match xwords with
  | [] => ret atleastOneRevision
  | xword :: rest =>
      match String.get (fst overlap) xword with
      | None => raise IndexError
      | Some xcommon =>
          revision <- lift (scan_ywords xcommon (snd overlap) ywords true) ;;
          if revision
          then remove_word x xword ;; revise_loop x overlap ywords rest true
          else revise_loop x overlap ywords rest atleastOneRevision
      end
  end.

Definition revise (x y : Var) : M bool :=
  match overlaps cw x y with
  | Some overlap =>
      xwords <- gets (fun s => domains s x) ;;
      ywords <- gets (fun s => domains s y) ;;
      revise_loop x overlap ywords xwords false
  | None => ret false
  end.

(** The arcs [ac3] starts from when it is given none: [(var, neighbor)] for
    every slot and every neighbor of it. *)
Definition all_arcs : list (Var * Var) :=
  flat_map (fun var => map (fun neighbor => (var, neighbor)) (neighbors var))
           (variables cw).

(** The arcs [(Z, X)] put back after a revision of [X] against [Y]. *)
Definition arcs_into (X Y : Var) : list (Var * Var) :=
  map (fun Z => (Z, X)) (filter (fun Z => negb (Var_eqb Z Y)) (neighbors X)).

(** The [while] loop of [ac3]; [fuel] bounds the number of arcs taken from
    the queue. *)
Fixpoint ac3_loop (fuel : nat) (queue : list (Var * Var)) : M bool :=
  match queue with
  | [] => ret true
  | (X, Y) :: queue' =>
      match fuel with
      | 0 => out_of_fuel
      | S fuel' =>
          revised <- revise X Y ;;
          if revised
          then
            n <- gets (fun s => List.length (domains s X)) ;;
            if n =? 0 then ret false
            else ac3_loop fuel' (queue' ++ arcs_into X Y)
          else ac3_loop fuel' queue'
      end
  end.

(** The number of words in the store, over the slots of the puzzle. *)
Definition total_size (d : Domains) : nat :=
  list_sum (map (fun v => List.length (d v)) (variables cw)).

(** A budget the loop never exhausts: every turn takes an arc, and a turn
    that adds arcs (fewer than there are slots) removes a word. *)
Definition ac3_fuel (queue : list (Var * Var)) (d : Domains) : nat :=
  List.length queue + total_size d * List.length (variables cw).

Definition ac3 (arcs : option (list (Var * Var))) : M bool :=
  let queue := match arcs with Some l => l | None => all_arcs end in
  fuel <- gets (fun s => ac3_fuel queue (domains s)) ;;
  ac3_loop fuel queue.

End Solver.

Section Search.

Variable cw : Crossword.

(** ** Search *)

Definition assignment_complete (a : Assignment) : bool :=
  List.length a =? List.length (variables cw).

(** The loop of [consistent] over the neighbors of [var], whose word is
    [word]: [Ok true] when no assigned neighbor disagrees. *)
Fixpoint check_neighbors (a : Assignment) (var : Var) (word : string)
    (nbs : list Var) : result bool :=
  match nbs with
  | [] => Ok true
  | neighbor :: rest =>
      match lookup a neighbor with
      | None => check_neighbors a var word rest
      | Some nword =>
          match overlaps cw var neighbor with
          | None => Raise TypeError
          | Some arc =>
              match String.get (fst arc) word, String.get (snd arc) nword with
              | Some c1, Some c2 =>
                  if Ascii.eqb c1 c2 then check_neighbors a var word rest
                  else Ok false
              | _, _ => Raise IndexError
              end
          end
      end
  end.

(** The loop of [consistent] over the entries of the dictionary, in
    insertion order; [distinct] holds the words seen so far. *)
Fixpoint consistent_loop (a entries : Assignment) (distinct : list string)
    : result bool :=
  match entries with
  | [] => Ok true
  | (var, word) :: rest =>
      if existsb (String.eqb word) distinct then Ok false
      else if negb (String.length word =? var_length var) then Ok false
      else
        ok <-- check_neighbors a var word (neighbors cw var) ;;
        if ok then consistent_loop a rest (distinct ++ [word]) else Ok false
  end.

Definition consistent (a : Assignment) : result bool :=
  consistent_loop a a [].

(** [for neighbor_value in ...: if neighbor_value == value: cost += 1]. *)
Definition count_equal (value : string) (ws : list string) : nat :=
  List.length (filter (String.eqb value) ws).

(** The cost [order_domain_values] gives to [value]. *)
Definition cost (s : State) (a : Assignment) (var : Var) (value : string) : nat :=
  list_sum
    (map (fun neighbor =>
            if in_assignment a neighbor then 0
            else count_equal value (domains s neighbor))
         (neighbors cw var)).

Definition order_domain_values (s : State) (var : Var) (a : Assignment)
    : list string :=
  let values_Dict := map (fun value => (value, cost s a var value)) (domains s var) in
  map fst (sort_desc snd values_Dict).

(** The dictionaries [{'var': ..., 'mrv': ..., 'degree': ...}]. *)
Record VarDict : Type := mkVarDict {
  vd_var : Var;
  vd_mrv : nat;
  vd_degree : nat
}.

(** [for key in assignment.keys(): if var == key: variables_new.remove(var)]. *)
Fixpoint remove_if_key (var : Var) (keys variables_new : list Var)
    : result (list Var) :=
  match keys with
  | [] => Ok variables_new
  | key :: rest =>
      if Var_eqb var key
      then vn <-- list_remove var variables_new ;; remove_if_key var rest vn
      else remove_if_key var rest variables_new
  end.

(** [for var in variables_old: ...]. *)
Fixpoint remove_assigned (variables_old keys variables_new : list Var)
    : result (list Var) :=
  match variables_old with
  | [] => Ok variables_new
  | var :: rest =>
      vn <-- remove_if_key var keys variables_new ;;
      remove_assigned rest keys vn
  end.

(** [for i in range(len(variables) - 1)]: the right-hand element of every
    adjacent pair with equal [mrv]. *)
Fixpoint adjacent_ties (l : list VarDict) : list VarDict :=
  match l with
  | v :: rest =>
      match rest with
      | v' :: _ =>
          if vd_mrv v =? vd_mrv v' then v' :: adjacent_ties rest
          else adjacent_ties rest
      | [] => []
      end
  | [] => []
  end.

Definition select_unassigned_variable (s : State) (a : Assignment) : result Var :=
  variables_new <--
    remove_assigned (variables cw) (map fst a) (variables cw) ;;
  let variables :=
    sort_asc vd_mrv
      (map (fun var => mkVarDict var (List.length (domains s var))
                                 (List.length (neighbors cw var)))
           variables_new) in
  match variables with
  | [] => Raise IndexError
  | [v] => Ok (vd_var v)
  | v0 :: v1 :: _ =>
      if negb (vd_mrv v0 =? vd_mrv v1) then Ok (vd_var v0)
      else
        match sort_desc vd_degree (v0 :: adjacent_ties variables) with
        | t :: _ => Ok (vd_var t)
        | [] => Raise IndexError
        end
  end.

Definition reads {A : Type} (f : State -> result A) : M A :=
  fun s => lift (f s) s.

Definition set_assignment (a : Assignment) : M unit :=
  fun s => Ok (tt, mkState (domains s) a (backtrack_calls s)).

(** Ghost step: one more call to [backtrack]. *)
Definition tick : M unit :=
  fun s => Ok (tt, mkState (domains s) (assignment s) (S (backtrack_calls s))).

(** [assignment[var] = value]. *)
Definition assign (var : Var) (value : string) : M unit :=
  a <- gets assignment ;; set_assignment (set_item a var value).

(** [del assignment[var]]. *)
Definition unassign (var : Var) : M unit :=
  a <- gets assignment ;;
  a' <- lift (del_item a var) ;;
  set_assignment a'.

(** The [for value in ...] loop of [backtrack]; [recurse] is the recursive
    call [self.backtrack(assignment)]. *)
Fixpoint try_values (recurse : M (option Assignment)) (var : Var)
    (values : list string) : M (option Assignment) :=
  match values with
  | [] => ret None
  | value :: rest =>
      assign var value ;;
      a1 <- gets assignment ;;
      ok <- lift (consistent a1) ;;
      if ok
      then
        result <- recurse ;;
        match result with
        | Some r => ret (Some r)
        | None => unassign var ;; try_values recurse var rest
        end
      else unassign var ;; try_values recurse var rest
  end.

(** [backtrack(assignment)], the dictionary being the one of the state;
    [depth] bounds the nesting of the calls. *)
Fixpoint backtrack (depth : nat) : M (option Assignment) :=
  match depth with
  | 0 => out_of_fuel
  | S depth' =>
      tick ;;
      a <- gets assignment ;;
      if assignment_complete a then ret (Some a)
      else
        var <- reads (fun s => select_unassigned_variable s a) ;;
        values <- gets (fun s => order_domain_values s var a) ;;
        try_values (backtrack depth') var values
  end.

(** [solve()]: the result of [ac3] is dropped, and [backtrack] starts from a
    new, empty dictionary. *)
Definition solve : M (option Assignment) :=
  enforce_node_consistency cw ;;
  ac3 cw None ;;
  set_assignment [] ;;
  backtrack (S (List.length (variables cw))).

End Search.

(** ** Puzzles *)

(** Modelled from the spec: the overlap table is "precomputed once from
    geometry" by the puzzle module, which is not part of the sources.  The
    cells of a slot run from its start along its direction; two different
    slots overlap at the offsets of a shared cell. *)
Definition cells (v : Var) : list (nat * nat) :=
  map (fun k =>
         match var_direction v with
         | DOWN => (var_i v + k, var_j v)
         | ACROSS => (var_i v, var_j v + k)
         end)
      (seq 0 (var_length v)).

Definition cell_eqb (c1 c2 : nat * nat) : bool :=
  (fst c1 =? fst c2) && (snd c1 =? snd c2).

Fixpoint index_of (c : nat * nat) (l : list (nat * nat)) : option nat :=
  match l with
  | [] => None
  | c' :: l' =>
      if cell_eqb c c' then Some 0
      else match index_of c l' with Some n => Some (S n) | None => None end
  end.

Fixpoint first_shared (cs1 cs2 : list (nat * nat)) (k : nat) : option (nat * nat) :=
  match cs1 with
  | [] => None
  | c :: cs1' =>
      match index_of c cs2 with
      | Some n => Some (k, n)
      | None => first_shared cs1' cs2 (S k)
      end
  end.

Definition geometric_overlaps (v1 v2 : Var) : option (nat * nat) :=
  if Var_eqb v1 v2 then None else first_shared (cells v1) (cells v2) 0.

Definition puzzle (vs : list Var) (ws : list string) : Crossword :=
  mkCrossword vs ws geometric_overlaps.

(** ** Example puzzles *)

(** One slot of two cells, and no word of two letters. *)
Definition lone_slot : Var := mkVar 0 0 ACROSS 2.

Definition lone_puzzle : Crossword := puzzle [lone_slot] ["ABC"].

(** Two slots of three cells; the second letter of the down slot is the first
    letter of the across slot. *)
Definition cross_across : Var := mkVar 1 0 ACROSS 3.
Definition cross_down : Var := mkVar 0 0 DOWN 3.

Definition cross_words : list string := ["AAB"; "BAC"; "CXY"].

Definition cross_puzzle : Crossword :=
  puzzle [cross_across; cross_down] cross_words.

(** A frame of five slots: the top row of seven cells, two columns of four
    cells hanging from its ends, and a row of three cells at the foot of each
    column. *)
Definition frame_top : Var := mkVar 0 0 ACROSS 7.
Definition frame_left : Var := mkVar 0 0 DOWN 4.
Definition frame_right : Var := mkVar 0 6 DOWN 4.
Definition frame_foot_left : Var := mkVar 3 0 ACROSS 3.
Definition frame_foot_right : Var := mkVar 3 4 ACROSS 3.

Definition frame_slots : list Var :=
  [frame_top; frame_left; frame_right; frame_foot_left; frame_foot_right].

Definition frame_words : list string :=
  ["TAT"; "EAST"; "WEST"; "EXAMPLE"; "WINDROW"; "EYEBROW"].

(** The state an outcome ends in, for outcomes that end in one. *)
Definition final_state {A : Type} (default : State) (r : result (A * State)) : State :=
  match r with
  | Ok (_, s) => s
  | _ => default
  end.

(** The store [solve()] hands to the search: [__init__], then
    [enforce_node_consistency()], then [ac3()]. *)
Definition prepared (cw : Crossword) : State :=
  final_state (init cw)
    ((enforce_node_consistency cw ;; ac3 cw None) (init cw)).

(** All the orders in which a set may be listed. *)
Fixpoint insert_everywhere {A : Type} (x : A) (l : list A) : list (list A) :=
  match l with
  | [] => [[x]]
  | y :: l' => (x :: l) :: map (cons y) (insert_everywhere x l')
  end.

Fixpoint orders {A : Type} (l : list A) : list (list A) :=
  match l with
  | [] => [[]]
  | x :: l' => flat_map (insert_everywhere x) (orders l')
  end.

(** The store after node consistency on the crossing pair. *)
Definition cross_start : State :=
  final_state (init cross_puzzle)
              (enforce_node_consistency cross_puzzle (init cross_puzzle)).

(** The store after node consistency on the lone slot: its domain is empty. *)
Definition lone_start : State :=
  final_state (init lone_puzzle)
              (enforce_node_consistency lone_puzzle (init lone_puzzle)).

(** A crossing pair whose vocabulary gives the across slot no partner:
    [ac3] empties its domain and answers [False]. *)
Definition clash_puzzle : Crossword :=
  puzzle [cross_across; cross_down] ["ABC"; "DEF"].

(** The clashing pair after node consistency, with the down slot assigned:
    both words are tried for the across slot, and both are rejected. *)
Definition clash_down_assigned : State :=
  mkState
    (domains (final_state (init clash_puzzle)
                (enforce_node_consistency clash_puzzle (init clash_puzzle))))
    [(cross_down, "ABC")] 0.

(** The assignment [solve()] finds for the crossing pair. *)
Definition cross_solution : Assignment :=
  [(cross_across, "AAB"); (cross_down, "BAC")].

(** ** The grid of letters *)

(** The 2D array [letters] of [letter_grid]: rows of cells, a cell being
    [None] or a character. *)
Definition Grid : Type := list (list (option ascii)).

(** [l[n] = x] on a list: [IndexError] when [n] is not an index of [l]. *)
Fixpoint list_set {A : Type} (l : list A) (n : nat) (x : A) : result (list A) :=
  match l, n with
  | [], _ => Raise IndexError
  | _ :: l', 0 => Ok (x :: l')
  | y :: l', S n' => l'' <-- list_set l' n' x ;; Ok (y :: l'')
  end.

(** [letters[i][j] = c]: the row [letters[i]] is updated in place. *)
Definition set_cell (letters : Grid) (i j : nat) (c : ascii) : result Grid :=
  match nth_error letters i with
  | None => Raise IndexError
  | Some row => row' <-- list_set row j (Some c) ;; list_set letters i row'
  end.

(** The cell of the [k]-th letter of a slot: the [i] and [j] computed in the
    inner loop of [letter_grid]. *)
Definition cell (variable : Var) (k : nat) : nat * nat :=
  (var_i variable + match var_direction variable with DOWN => k | ACROSS => 0 end,
   var_j variable + match var_direction variable with ACROSS => k | DOWN => 0 end).

(** [for k in range(len(word)): ... letters[i][j] = word[k]], over the
    values [ks] of [k]. *)
Fixpoint write_word (variable : Var) (word : string) (ks : list nat)
    (letters : Grid) : result Grid :=
  match ks with
  | [] => Ok letters
  | k :: ks' =>
      match String.get k word with
      | None => Raise IndexError
      | Some c =>
          letters' <--
            set_cell letters (fst (cell variable k)) (snd (cell variable k)) c ;;
          write_word variable word ks' letters'
      end
  end.

(** [for variable, word in assignment.items(): ...]. *)
Fixpoint write_items (items : Assignment) (letters : Grid) : result Grid :=
  match items with
  | [] => Ok letters
  | (variable, word) :: items' =>
      letters' <--
        write_word variable word (seq 0 (String.length word)) letters ;;
      write_items items' letters'
  end.

(** [letter_grid(assignment)]; [height] and [width] are the attributes of
    that name of [self.crossword]. *)
Definition letter_grid (height width : nat) (a : Assignment) : result Grid :=
  write_items a (repeat (repeat None width) height).

(** [g[i][j]], when both indices are in range. *)
Definition grid_get (g : Grid) (i j : nat) : option (option ascii) :=
  match nth_error g i with
  | Some row => nth_error row j
  | None => None
  end.

(** A grid of [height] rows of [width] cells. *)
Definition has_size (height width : nat) (g : Grid) : Prop :=
  List.length g = height /\ forall row, In row g -> List.length row = width.

(** The cell [c] lies in a grid of [height] rows and [width] columns. *)
Definition inside_grid (height width : nat) (c : nat * nat) : Prop :=
  fst c < height /\ snd c < width.

(** The letters [letter_grid] writes, in the order it writes them. *)
Definition word_writes (variable : Var) (word : string) (ks : list nat)
    : list ((nat * nat) * option ascii) :=
  map (fun k => (cell variable k, String.get k word)) ks.

Definition all_writes (a : Assignment) : list ((nat * nat) * option ascii) :=
  flat_map (fun vw => word_writes (fst vw) (snd vw)
                        (seq 0 (String.length (snd vw)))) a.

(** The letter written last at the cell [c], if any. *)
Fixpoint last_write (ws : list ((nat * nat) * option ascii)) (c : nat * nat)
    : option ascii :=
  match ws with
  | [] => None
  | (c', x) :: ws' =>
      match last_write ws' c with
      | Some y => Some y
      | None => if cell_eqb c c' then x else None
      end
  end.

(** What a run of writes does to a grid: it ends with the last letter
    written at each cell, or raises [IndexError] at a cell outside. *)
Definition painted (height width : nat) (ws : list ((nat * nat) * option ascii)) (g : Grid)
    (r : result Grid) : Prop :=
  (Forall (fun p => inside_grid height width (fst p)) ws
   /\ exists g',
        r = Ok g'
        /\ has_size height width g'
        /\ forall i j, grid_get g' i j
                       = match last_write ws (i, j) with
                         | Some c => Some (Some c)
                         | None => grid_get g i j
                         end)
  \/ (~ Forall (fun p => inside_grid height width (fst p)) ws
      /\ r = Raise IndexError).

(** Two assigned words that cover one cell carry the same letter there. *)
Definition agree_on_cells (a : Assignment) : Prop :=
  forall v1 w1 k1 v2 w2 k2,
    In (v1, w1) a -> In (v2, w2) a ->
    k1 < String.length w1 -> k2 < String.length w2 ->
    cell v1 k1 = cell v2 k2 ->
    String.get k1 w1 = String.get k2 w2.

(** ** Properties of puzzles, stores and assignments *)

(** The word [w], read at offset [i], agrees with some word of [ys] read at
    offset [j]. *)
Definition supported (i j : nat) (ys : list string) (w : string) : Prop :=
  exists v c, In v ys /\ String.get i w = Some c /\ String.get j v = Some c.

(** [x in l] for a list of slots. *)
Definition mem (x : Var) (l : list Var) : bool :=
  existsb (fun k => Var_eqb k x) l.

(** Every assigned word has the length of its slot. *)
Definition lengths_match (a : Assignment) : Prop :=
  forall x w, In (x, w) a -> String.length w = var_length x.

Section Properties.

Variable cw : Crossword.

(** Every word of [x]'s domain has a partner in [y]'s domain. *)
Definition arc_consistent (d : Domains) (x y : Var) (i j : nat) : Prop :=
  forall w, In w (d x) -> supported i j (d y) w.

(** The contract of the puzzle module on the overlap table: it is symmetric,
    no slot overlaps itself, and offsets lie within the slots. *)
Definition symmetric_overlaps : Prop :=
  forall x y i j,
    In x (variables cw) -> In y (variables cw) ->
    overlaps cw x y = Some (i, j) -> overlaps cw y x = Some (j, i).

Definition irreflexive_overlaps : Prop :=
  forall x, In x (variables cw) -> overlaps cw x x = None.

Definition in_bounds_overlaps : Prop :=
  forall x y i j,
    In x (variables cw) -> In y (variables cw) ->
    overlaps cw x y = Some (i, j) -> i < var_length x /\ j < var_length y.

(** Every word of a slot's domain has the length of the slot. *)
Definition node_consistent (d : Domains) : Prop :=
  forall v w, In v (variables cw) -> In w (d v) -> String.length w = var_length v.

(** The invariant of the loop: an arc between neighbors that is not in the
    queue is consistent. *)
Definition pending_or_consistent (queue : list (Var * Var)) (d : Domains) : Prop :=
  forall x y i j,
    In x (variables cw) -> In y (variables cw) ->
    overlaps cw x y = Some (i, j) ->
    In (x, y) queue \/ arc_consistent d x y i j.

(** The slots of the puzzle that are no key of the assignment. *)
Definition unassigned (a : Assignment) : list Var :=
  filter (fun v => negb (in_assignment a v)) (variables cw).

(** What a successful [consistent] means for the assignment. *)
Definition valid_assignment (a : Assignment) : Prop :=
  NoDup (map snd a)
  /\ (forall x w, In (x, w) a -> String.length w = var_length x)
  /\ (forall x y wx wy i j,
        In (x, wx) a -> In y (neighbors cw x) -> lookup a y = Some wy ->
        overlaps cw x y = Some (i, j) ->
        exists c, String.get i wx = Some c /\ String.get j wy = Some c).

(** The states on which the search raises nothing: offsets within the
    slots, a node-consistent store, and an assignment of words of the right
    lengths to slots of the puzzle. *)
Definition well_formed (d : Domains) (a : Assignment) : Prop :=
  in_bounds_overlaps
  /\ node_consistent d
  /\ incl (map fst a) (variables cw)
  /\ lengths_match a.

(** Some slot still to be assigned has no candidate. *)
Definition blocked (d : Domains) (a : Assignment) : Prop :=
  exists v, In v (unassigned a) /\ d v = [].

(** A call that ends, that leaves the dictionary as it found it when it
    answers [None], and that answers (with [None] when the state is blocked)
    on a well-formed state. *)
Definition runs (c : M (option Assignment)) (s : State) : Prop :=
  c s <> OutOfFuel
  /\ (forall s', c s = Ok (None, s') -> assignment s' = assignment s)
  /\ (well_formed (domains s) (assignment s) ->
      exists r s', c s = Ok (r, s')
                   /\ (blocked (domains s) (assignment s) -> r = None)).

(** Every key is a slot of the puzzle, no key is repeated, and every word
    is in the domain of its slot. *)
Definition drawn_from (d : Domains) (a : Assignment) : Prop :=
  NoDup (map fst a)
  /\ forall x w, In (x, w) a -> In x (variables cw) /\ In w (d x).

(** A solution within the store [d]: every slot of the puzzle has one word,
    taken from its domain, and the assignment is valid. *)
Definition is_solution (d : Domains) (sol : Assignment) : Prop :=
  NoDup (map fst sol)
  /\ (forall v, In v (variables cw) <-> In v (map fst sol))
  /\ valid_assignment sol
  /\ forall x w, In (x, w) sol -> In w (d x).

End Properties.

(** ** Tactics for the example puzzles *)

Ltac slot_cases :=
  repeat match goal with
         | H : In _ (variables _) |- _ => simpl in H
         | H : _ \/ _ |- _ => destruct H as [H|H]
         | H : False |- _ => destruct H
         | H : _ = _ :> Var |- _ => subst
         end.

Ltac nodup_slots :=
  repeat (constructor; [simpl; intuition discriminate|]); constructor.

(** ** Basic facts *)

Lemma Var_eqb_eq (x y : Var) : Var_eqb x y = true <-> x = y.
Proof.
  destruct x as [i1 j1 d1 n1], y as [i2 j2 d2 n2]; unfold Var_eqb; simpl.
  rewrite !andb_true_iff, !Nat.eqb_eq.
  split.
  - intros [[[Hi Hj] Hd] Hn]; subst.
    destruct d1, d2; simpl in Hd; congruence.
  - intros H; injection H as -> -> -> ->.
    destruct d2; auto.
Qed.

Lemma Var_eqb_refl (x : Var) : Var_eqb x x = true.
Proof. now apply Var_eqb_eq. Qed.

Lemma Var_eqb_neq (x y : Var) : Var_eqb x y = false <-> x <> y.
Proof.
  rewrite <- Var_eqb_eq. destruct (Var_eqb x y); split; congruence.
Qed.

Lemma Var_eqb_sym_bool (x y : Var) : Var_eqb x y = Var_eqb y x.
Proof.
  destruct (Var_eqb y x) eqn:E.
  - apply Var_eqb_eq in E. subst. apply Var_eqb_refl.
  - apply Var_eqb_neq. apply Var_eqb_neq in E. congruence.
Qed.

Lemma Var_eq_dec (x y : Var) : {x = y} + {x <> y}.
Proof.
  destruct (Var_eqb x y) eqn:E.
  - left. now apply Var_eqb_eq.
  - right. now apply Var_eqb_neq.
Qed.

Lemma get_in_bounds (w : string) (n : nat) :
  n < String.length w -> exists c, String.get n w = Some c.
Proof.
  revert n; induction w as [|a w IH]; intros n Hn; simpl in *.
  - lia.
  - destruct n as [|n]; [now exists a|]. apply IH. lia.
Qed.

Lemma in_set_remove (w u : string) (ws : list string) :
  In u (set_remove w ws) <-> In u ws /\ u <> w.
Proof.
  unfold set_remove. rewrite filter_In, negb_true_iff.
  now rewrite String.eqb_neq.
Qed.

Lemma filter_length_lt {A : Type} (f : A -> bool) (l : list A) (x : A) :
  In x l -> f x = false -> List.length (filter f l) < List.length l.
Proof.
  induction l as [|y l IH]; simpl; [tauto|].
  intros [->|Hin] Hf.
  - rewrite Hf. pose proof (filter_length_le f l). lia.
  - destruct (f y); simpl; specialize (IH Hin Hf); lia.
Qed.

Lemma upd_same (d : Domains) (x : Var) (ws : list string) : upd d x ws x = ws.
Proof. unfold upd. now rewrite Var_eqb_refl. Qed.

Lemma upd_other (d : Domains) (x z : Var) (ws : list string) :
  Var_eqb z x = false -> upd d x ws z = d z.
Proof. unfold upd. now intros ->. Qed.

(** ** Node consistency *)

Section NodeConsistency.

Variable cw : Crossword.

(** The inner loop of [enforce_node_consistency] on the slot [var]. *)
Lemma remove_wrong_lengths (var : Var) (ws : list string) (s : State) :
  exists s',
    for_each ws (fun word =>
      if negb (String.length word =? var_length var)
      then remove_word var word else ret tt) s = Ok (tt, s')
    /\ (forall z, Var_eqb z var = false -> domains s' z = domains s z)
    /\ (forall u, In u (domains s' var) <->
                  In u (domains s var)
                  /\ (In u ws -> String.length u = var_length var))
    /\ assignment s' = assignment s
    /\ backtrack_calls s' = backtrack_calls s.
Proof.
  revert s; induction ws as [|word ws IH]; intros s; simpl.
  - exists s. unfold ret. repeat split; tauto.
  - unfold bind at 1.
    destruct (String.length word =? var_length var) eqn:E; simpl.
    + apply Nat.eqb_eq in E.
      destruct (IH s) as (s' & Hrun & Hoth & Hdom & Ha & Hb).
      exists s'. rewrite Hrun. repeat split; auto.
      * apply Hdom; auto.
      * intros [->|Hin]; [assumption|]. now apply Hdom.
      * intros [Hu Hlen]. apply Hdom. auto.
    + apply Nat.eqb_neq in E.
      set (s1 := mkState (upd (domains s) var (set_remove word (domains s var)))
                         (assignment s) (backtrack_calls s)).
      destruct (IH s1) as (s' & Hrun & Hoth & Hdom & Ha & Hb).
      exists s'. rewrite Hrun. repeat split; auto.
      * intros z Hz. rewrite (Hoth z Hz). simpl. now apply upd_other.
      * apply Hdom in H. destruct H as [H _]. simpl in H.
        rewrite upd_same in H. now apply in_set_remove in H.
      * apply Hdom in H. destruct H as [H Hlen]. simpl in H.
        rewrite upd_same in H. apply in_set_remove in H.
        intros [<-|Hin]; [tauto | auto].
      * intros [Hu Hlen]. apply Hdom. simpl. rewrite upd_same. split.
        -- apply in_set_remove. split; [assumption|].
           intros ->. apply E. apply Hlen. now left.
        -- auto.
Qed.

(** The outer loop, over the slots [vs]. *)
Lemma enforce_loop (vs : list Var) (s : State) :
  exists s',
    for_each vs (fun var =>
      words <- gets (fun s => domains s var) ;;
      for_each words (fun word =>
        if negb (String.length word =? var_length var)
        then remove_word var word else ret tt)) s = Ok (tt, s')
    /\ (forall v u, In u (domains s' v) <->
                    In u (domains s v)
                    /\ (In v vs -> String.length u = var_length v))
    /\ assignment s' = assignment s
    /\ backtrack_calls s' = backtrack_calls s.
Proof.
  revert s; induction vs as [|var vs IH]; intros s; simpl.
  - exists s. unfold ret. repeat split; tauto.
  - unfold bind at 1. unfold bind at 1. unfold gets at 1.
    destruct (remove_wrong_lengths var (domains s var) s)
      as (s1 & Hrun1 & Hoth1 & Hdom1 & Ha1 & Hb1).
    rewrite Hrun1.
    destruct (IH s1) as (s' & Hrun & Hdom & Ha & Hb).
    exists s'. rewrite Hrun. repeat split; try congruence.
    + apply Hdom in H. destruct H as [H _].
      destruct (Var_eqb v var) eqn:E.
      * apply Var_eqb_eq in E; subst. now apply Hdom1 in H.
      * now rewrite (Hoth1 v E) in H.
    + apply Hdom in H. destruct H as [H Hlen].
      intros [<-|Hin]; [|auto].
      apply Hdom1 in H. tauto.
    + intros [Hu Hlen]. apply Hdom. split; [|auto].
      destruct (Var_eqb v var) eqn:E.
      * apply Var_eqb_eq in E; subst. apply Hdom1. auto.
      * now rewrite (Hoth1 v E).
Qed.

Lemma enforce_node_consistency_spec (s : State) :
  exists s',
    enforce_node_consistency cw s = Ok (tt, s')
    /\ (forall v u, In u (domains s' v) <->
                    In u (domains s v)
                    /\ (In v (variables cw) -> String.length u = var_length v))
    /\ assignment s' = assignment s
    /\ backtrack_calls s' = backtrack_calls s.
Proof. apply enforce_loop. Qed.

End NodeConsistency.

(** C9.  After [enforce_node_consistency] on the store built by [__init__],
    the domain of every slot [v] of the puzzle holds exactly the words of
    the vocabulary whose length is [v.length]: every word left has that
    length, and no word of that length was removed. *)
Theorem node_consistency_keeps_exactly_fitting_words (cw : Crossword) :
  exists s,
    enforce_node_consistency cw (init cw) = Ok (tt, s)
    /\ forall v, In v (variables cw) ->
       forall w, In w (domains s v) <->
                 In w (words cw) /\ String.length w = var_length v.
Proof.
  destruct (enforce_node_consistency_spec cw (init cw)) as (s & Hrun & Hdom & _).
  exists s. split; [assumption|].
  intros v Hv w. rewrite Hdom. simpl. tauto.
Qed.

Lemma node_consistency_keeps_exactly_fitting_words_witness :
  exists s,
    enforce_node_consistency cross_puzzle (init cross_puzzle) = Ok (tt, s)
    /\ (In cross_down (variables cross_puzzle)
        /\ forall w, In w (domains s cross_down) <->
                     In w (words cross_puzzle)
                     /\ String.length w = var_length cross_down).
Proof.
  destruct (node_consistency_keeps_exactly_fitting_words cross_puzzle)
    as (s & Hrun & Hdom).
  exists s. split; [exact Hrun|].
  assert (Hin : In cross_down (variables cross_puzzle)) by (simpl; auto).
  split; [exact Hin | exact (Hdom cross_down Hin)].
Defined.

(** ** Arc consistency: [revise] *)

Lemma scan_ywords_ok (xc : ascii) (j : nat) (ys : list string) (r r' : bool) :
  scan_ywords xc j ys r = Ok r' ->
  (r' = true <-> r = true /\ ~ exists v, In v ys /\ String.get j v = Some xc).
Proof.
  revert r; induction ys as [|y ys IH]; intros r; simpl.
  - intros [= <-]. split; [intros ->; split; [reflexivity|]|tauto].
    intros (v & [] & _).
  - destruct (String.get j y) as [yc|] eqn:Hy; [|discriminate].
    intros H. apply IH in H. rewrite H. clear H.
    destruct (Ascii.eqb xc yc) eqn:E.
    + apply Ascii.eqb_eq in E; subst yc.
      split; [intros [? _]; discriminate|].
      intros [_ Hno]. exfalso. apply Hno. exists y. auto.
    + apply Ascii.eqb_neq in E.
      split; intros [Hr Hno]; (split; [assumption|]).
      * intros (v & [<-|Hin] & Hv); [congruence|]. apply Hno. eauto.
      * intros (v & Hin & Hv). apply Hno. exists v. auto.
Qed.

Lemma scan_ywords_total (xc : ascii) (j : nat) (ys : list string) (r : bool) :
  (forall v, In v ys -> j < String.length v) ->
  exists r', scan_ywords xc j ys r = Ok r'.
Proof.
  revert r; induction ys as [|y ys IH]; intros r Hb; simpl.
  - eauto.
  - destruct (get_in_bounds y j) as [c ->]; [apply Hb; now left|].
    apply IH. intros v Hv. apply Hb. now right.
Qed.

Section Revise.

Variable cw : Crossword.

(** What the outer loop of [revise] has done when it ends normally. *)
Lemma revise_loop_ok (x : Var) (i j : nat) (ys xs : list string)
    (flag b : bool) (s s' : State) :
  revise_loop x (i, j) ys xs flag s = Ok (b, s') ->
  (forall z, Var_eqb z x = false -> domains s' z = domains s z)
  /\ (forall w, In w (domains s' x) <->
                In w (domains s x) /\ (In w xs -> supported i j ys w))
  /\ (b = true <-> flag = true \/ exists w, In w xs /\ ~ supported i j ys w)
  /\ (b = false -> s' = s)
  /\ assignment s' = assignment s
  /\ backtrack_calls s' = backtrack_calls s.
Proof.
  revert flag s; induction xs as [|xw xs IH]; intros flag s; simpl.
  - unfold ret. intros [= <- <-]. repeat split; try tauto.
    + intros [H|(w & [] & _)]; assumption.
  - destruct (String.get i xw) as [xc|] eqn:Hxc; [|discriminate].
    unfold bind at 1, lift at 1.
    destruct (scan_ywords xc j ys true) as [revision| |] eqn:Hscan;
      simpl; try discriminate.
    apply scan_ywords_ok in Hscan.
    assert (Hsup : supported i j ys xw <->
                   exists v, In v ys /\ String.get j v = Some xc).
    { split.
      - intros (v & c & Hin & Hw & Hv). exists v. split; [assumption|congruence].
      - intros (v & Hin & Hv). exists v, xc. auto. }
    destruct revision.
    + (* [xw] has no support and is removed *)
      assert (Hno : ~ supported i j ys xw).
      { rewrite Hsup. apply Hscan. reflexivity. }
      unfold bind at 1, remove_word at 1.
      intros H. apply IH in H. simpl in H.
      destruct H as (Hoth & Hdom & Hb & Hsame & Ha & Hc).
      repeat split; try assumption.
      * intros z Hz. rewrite (Hoth z Hz). now apply upd_other.
      * apply Hdom in H. destruct H as [H _].
        rewrite upd_same in H. now apply in_set_remove in H.
      * apply Hdom in H. destruct H as [H Hs].
        rewrite upd_same in H. apply in_set_remove in H.
        intros [<-|Hin]; [tauto|auto].
      * intros [Hw Hs]. apply Hdom. rewrite upd_same. split; [|auto].
        apply in_set_remove. split; [assumption|].
        intros ->. apply Hno. apply Hs. now left.
      * intros _. right. exists xw. split; [now left|assumption].
      * intros _. apply Hb. now left.
      * intros Hf. exfalso.
        assert (Ht : b = true) by (apply Hb; now left). congruence.
    + (* [xw] has a support and stays *)
      assert (Hyes : supported i j ys xw).
      { rewrite Hsup.
        destruct Hscan as [_ Hscan].
        assert (Hdec : forall l : list string,
                   (exists v, In v l /\ String.get j v = Some xc)
                   \/ ~ (exists v, In v l /\ String.get j v = Some xc)).
        { induction l as [|v l [IHl|IHl]].
          - right. intros (v & [] & _).
          - left. destruct IHl as (v' & Hin & Hv'). exists v'. split; [now right|assumption].
          - destruct (String.get j v) as [c|] eqn:Hc.
            + destruct (Ascii.eqb c xc) eqn:Ec.
              * apply Ascii.eqb_eq in Ec; subst. left. exists v. split; [now left|assumption].
              * apply Ascii.eqb_neq in Ec. right.
                intros (v' & [<-|Hin] & Hv'); [congruence|]. apply IHl. eauto.
            + right. intros (v' & [<-|Hin] & Hv'); [congruence|]. apply IHl. eauto. }
        destruct (Hdec ys) as [Hex|Hnex]; [assumption|].
        exfalso. assert (false = true) by (apply Hscan; auto). discriminate. }
      intros H. apply IH in H.
      destruct H as (Hoth & Hdom & Hb & Hsame & Ha & Hc).
      repeat split; try assumption.
      * now apply Hdom in H.
      * apply Hdom in H. destruct H as [_ Hs].
        intros [<-|Hin]; [assumption|auto].
      * intros [Hw Hs]. apply Hdom. auto.
      * intros Hbt. apply Hb in Hbt. destruct Hbt as [Hf|(w & Hin & Hw)]; [now left|].
        right. exists w. split; [now right|assumption].
      * intros [Hf|(w & [<-|Hin] & Hw)]; apply Hb; [now left|tauto|].
        right. eauto.
Qed.

(** The loop ends normally when every offset read is within its word. *)
Lemma revise_loop_total (x : Var) (i j : nat) (ys xs : list string)
    (flag : bool) (s : State) :
  (forall w, In w xs -> i < String.length w) ->
  (forall v, In v ys -> j < String.length v) ->
  exists b s', revise_loop x (i, j) ys xs flag s = Ok (b, s').
Proof.
  intros Hx Hy. revert flag s; induction xs as [|xw xs IH]; intros flag s; simpl.
  - unfold ret. eauto.
  - destruct (get_in_bounds xw i) as [xc ->]; [apply Hx; now left|].
    unfold bind at 1, lift at 1.
    destruct (scan_ywords_total xc j ys true Hy) as [r ->]. simpl.
    assert (Hx' : forall w, In w xs -> i < String.length w)
      by (intros w Hw; apply Hx; now right).
    destruct r.
    + unfold bind at 1, remove_word at 1. apply (IH Hx').
    + apply (IH Hx').
Qed.

(** The store only shrinks, and a revision that reports a change has
    removed a word. *)
Lemma revise_loop_length (x : Var) (ov : nat * nat) (ys xs : list string)
    (flag b : bool) (s s' : State) :
  revise_loop x ov ys xs flag s = Ok (b, s') ->
  List.length (domains s' x) <= List.length (domains s x)
  /\ (flag = false -> b = true ->
      (forall w, In w xs -> In w (domains s x)) ->
      List.length (domains s' x) < List.length (domains s x)).
Proof.
  revert flag s; induction xs as [|xw xs IH]; intros flag s; simpl.
  - unfold ret. intros [= <- <-]. split; [lia|]. congruence.
  - destruct (String.get (fst ov) xw) as [xc|]; [|discriminate].
    unfold bind at 1, lift at 1.
    destruct (scan_ywords xc (snd ov) ys true) as [revision| |];
      simpl; try discriminate.
    destruct revision.
    + unfold bind at 1, remove_word at 1.
      intros H. apply IH in H. simpl in H. rewrite upd_same in H.
      destruct H as [Hle _].
      pose proof (filter_length_le (fun u => negb (String.eqb u xw)) (domains s x)) as Hf.
      fold (set_remove xw (domains s x)) in Hf.
      split; [lia|].
      intros _ _ Hin.
      assert (Hlt : List.length (set_remove xw (domains s x))
                    < List.length (domains s x)).
      { apply filter_length_lt with (x := xw).
        - apply Hin. now left.
        - now rewrite String.eqb_refl. }
      lia.
    + intros H. apply IH in H. destruct H as [Hle Hlt].
      split; [assumption|].
      intros Hf Hb Hin. apply Hlt; auto.
Qed.

Lemma revise_ok (x y : Var) (i j : nat) (b : bool) (s s' : State) :
  overlaps cw x y = Some (i, j) ->
  revise cw x y s = Ok (b, s') ->
  (forall z, Var_eqb z x = false -> domains s' z = domains s z)
  /\ (forall w, In w (domains s' x) <->
                In w (domains s x) /\ supported i j (domains s y) w)
  /\ (b = true <-> exists w, In w (domains s x) /\ ~ supported i j (domains s y) w)
  /\ (b = false -> s' = s)
  /\ List.length (domains s' x) <= List.length (domains s x)
  /\ (b = true -> List.length (domains s' x) < List.length (domains s x))
  /\ assignment s' = assignment s
  /\ backtrack_calls s' = backtrack_calls s.
Proof.
  intros Hov. unfold revise. rewrite Hov.
  unfold bind, gets. intros H.
  pose proof (revise_loop_length _ _ _ _ _ _ _ _ H) as [Hle Hlt].
  apply revise_loop_ok in H.
  destruct H as (Hoth & Hdom & Hb & Hsame & Ha & Hc).
  repeat split; try assumption.
  - now apply Hdom in H.
  - apply Hdom in H. tauto.
  - intros [Hw Hs]. apply Hdom. auto.
  - intros Hbt. apply Hb in Hbt. destruct Hbt as [?|?]; [discriminate|assumption].
  - intros He. apply Hb. now right.
  - intros Hbt. apply Hlt; auto.
Qed.

Lemma revise_no_overlap (x y : Var) (s : State) :
  overlaps cw x y = None -> revise cw x y s = Ok (false, s).
Proof. intros Hov. unfold revise. now rewrite Hov. Qed.

Lemma revise_total (x y : Var) (s : State) :
  (forall i j, overlaps cw x y = Some (i, j) ->
     (forall w, In w (domains s x) -> i < String.length w)
     /\ (forall v, In v (domains s y) -> j < String.length v)) ->
  exists b s', revise cw x y s = Ok (b, s').
Proof.
  intros Hb. unfold revise.
  destruct (overlaps cw x y) as [[i j]|].
  - unfold bind, gets. destruct (Hb i j eq_refl) as [Hx Hy].
    now apply revise_loop_total.
  - unfold ret. eauto.
Qed.

End Revise.

(** C7.  When the overlap of [x] and [y] is [(i, j)] (and every word of the
    two domains is long enough to be read there), [revise(x, y)] ends with
    [x]'s domain holding exactly its former words [w] for which some word
    [v] of [y]'s domain has [w[i] == v[j]]; [y]'s domain is unchanged, and
    the result is [True] exactly when a word was removed.  When the overlap
    is [None], [revise] changes nothing and returns [False]. *)
Theorem revise_removes_unsupported_words (cw : Crossword) (x y : Var) (s : State) :
  (forall i j,
     overlaps cw x y = Some (i, j) ->
     x <> y ->
     (forall w, In w (domains s x) -> i < String.length w) ->
     (forall v, In v (domains s y) -> j < String.length v) ->
     exists b s',
       revise cw x y s = Ok (b, s')
       /\ (forall w, In w (domains s' x) <->
                     In w (domains s x)
                     /\ exists v c, In v (domains s y)
                                    /\ String.get i w = Some c
                                    /\ String.get j v = Some c)
       /\ domains s' y = domains s y
       /\ (b = true <-> exists w, In w (domains s x) /\ ~ In w (domains s' x)))
  /\ (overlaps cw x y = None -> revise cw x y s = Ok (false, s)).
Proof.
  split; [|apply revise_no_overlap].
  intros i j Hov Hxy Hx Hy.
  destruct (revise_total cw x y s) as (b & s' & Hrun).
  { intros i' j' Hov'. rewrite Hov in Hov'. injection Hov' as <- <-. auto. }
  exists b, s'. split; [assumption|].
  destruct (revise_ok cw x y i j b s s' Hov Hrun) as (Hoth & Hdom & Hb & _).
  split; [exact Hdom|]. split.
  - apply Hoth. apply Var_eqb_neq. congruence.
  - rewrite Hb. split; intros (w & Hw & Hn); exists w; (split; [assumption|]).
    + intros Hin. apply Hdom in Hin. tauto.
    + intros Hs. apply Hn. apply Hdom. auto.
Qed.

Lemma revise_removes_unsupported_words_witness :
  overlaps cross_puzzle cross_across cross_down = Some (0, 1)
  /\ cross_across <> cross_down
  /\ exists b s',
       revise cross_puzzle cross_across cross_down cross_start = Ok (b, s')
       /\ (forall w, In w (domains s' cross_across) <->
                     In w (domains cross_start cross_across)
                     /\ exists v c, In v (domains cross_start cross_down)
                                    /\ String.get 0 w = Some c
                                    /\ String.get 1 v = Some c)
       /\ domains s' cross_down = domains cross_start cross_down
       /\ (b = true <-> exists w, In w (domains cross_start cross_across)
                                  /\ ~ In w (domains s' cross_across)).
Proof.
  assert (Hov : overlaps cross_puzzle cross_across cross_down = Some (0, 1))
    by reflexivity.
  assert (Hne : cross_across <> cross_down) by discriminate.
  split; [exact Hov|]. split; [exact Hne|].
  destruct (revise_removes_unsupported_words
              cross_puzzle cross_across cross_down cross_start) as [H _].
  apply (H 0 1 Hov Hne).
  - intros w Hw. vm_compute in Hw.
    destruct Hw as [<-|[<-|[<-|[]]]]; simpl; lia.
  - intros v Hv. vm_compute in Hv.
    destruct Hv as [<-|[<-|[<-|[]]]]; simpl; lia.
Defined.

(** ** Arc consistency: [ac3] *)

Section AC3.

Variable cw : Crossword.

Lemma in_neighbors (x y : Var) :
  In y (neighbors cw x) <->
  In y (variables cw) /\ exists i j, overlaps cw x y = Some (i, j).
Proof.
  unfold neighbors. rewrite filter_In.
  destruct (overlaps cw x y) as [[i j]|].
  - split; intros [Hy _]; (split; [assumption|eauto]).
  - split; intros [Hy H]; [discriminate|]. destruct H as (i & j & [=]).
Qed.

Lemma neighbors_length (x : Var) :
  List.length (neighbors cw x) <= List.length (variables cw).
Proof. apply filter_length_le. Qed.

Lemma arcs_into_length (X Y : Var) :
  List.length (arcs_into cw X Y) <= List.length (variables cw).
Proof.
  unfold arcs_into. rewrite length_map.
  etransitivity; [apply filter_length_le|apply neighbors_length].
Qed.

Lemma in_arcs_into (X Y Z W : Var) :
  In (Z, W) (arcs_into cw X Y) <-> W = X /\ In Z (neighbors cw X) /\ Z <> Y.
Proof.
  unfold arcs_into. rewrite in_map_iff. split.
  - intros (z & [= <- <-] & Hz). apply filter_In in Hz.
    destruct Hz as [Hz Hne]. apply negb_true_iff, Var_eqb_neq in Hne. auto.
  - intros (-> & Hz & Hne). exists Z. split; [reflexivity|].
    apply filter_In. split; [assumption|]. now apply negb_true_iff, Var_eqb_neq.
Qed.

Lemma in_all_arcs (x y : Var) :
  In (x, y) (all_arcs cw) <-> In x (variables cw) /\ In y (neighbors cw x).
Proof.
  unfold all_arcs. rewrite in_flat_map. split.
  - intros (v & Hv & Hin). apply in_map_iff in Hin.
    destruct Hin as (n & [= <- <-] & Hn). auto.
  - intros [Hx Hy]. exists x. split; [assumption|].
    apply in_map_iff. eauto.
Qed.

Lemma total_size_lt (d d1 : Domains) (X : Var) :
  In X (variables cw) ->
  (forall z, Var_eqb z X = false -> d1 z = d z) ->
  List.length (d1 X) < List.length (d X) ->
  total_size cw d1 < total_size cw d.
Proof.
  unfold total_size. intros HX Hoth Hlt.
  assert (H : forall vs,
             list_sum (map (fun v => List.length (d1 v)) vs)
             <= list_sum (map (fun v => List.length (d v)) vs)
             /\ (In X vs ->
                 list_sum (map (fun v => List.length (d1 v)) vs)
                 < list_sum (map (fun v => List.length (d v)) vs))).
  { induction vs as [|v vs [IHle IHlt]]; simpl; [split; [lia|tauto]|].
    assert (Hv : List.length (d1 v) <= List.length (d v)
                 /\ (v = X -> List.length (d1 v) < List.length (d v))).
    { destruct (Var_eqb v X) eqn:E.
      - apply Var_eqb_eq in E; subst. split; [lia|auto].
      - rewrite (Hoth v E). split; [lia|].
        intros ->. rewrite Var_eqb_refl in E. discriminate. }
    destruct Hv as [Hle Hst]. split; [lia|].
    intros [->|Hin]; [specialize (Hst eq_refl)|specialize (IHlt Hin)]; lia. }
  now apply H.
Qed.

Lemma fuel_after_revision (X Y : Var) (q : list (Var * Var)) (d d1 : Domains)
    (f : nat) :
  In X (variables cw) ->
  (forall z, Var_eqb z X = false -> d1 z = d z) ->
  List.length (d1 X) < List.length (d X) ->
  ac3_fuel cw ((X, Y) :: q) d <= S f ->
  ac3_fuel cw (q ++ arcs_into cw X Y) d1 <= f.
Proof.
  intros HX Hoth Hlt. unfold ac3_fuel. simpl. rewrite length_app.
  pose proof (total_size_lt d d1 X HX Hoth Hlt).
  pose proof (arcs_into_length X Y). nia.
Qed.

Lemma revise_loop_returns (x : Var) (ov : nat * nat) (ys xs : list string)
    (flag : bool) (s : State) :
  revise_loop x ov ys xs flag s <> OutOfFuel.
Proof.
  revert flag s; induction xs as [|xw xs IH]; intros flag s; simpl.
  - discriminate.
  - destruct (String.get (fst ov) xw) as [xc|]; [|discriminate].
    unfold bind at 1, lift at 1.
    assert (Hs : forall r, scan_ywords xc (snd ov) ys r <> OutOfFuel).
    { clear. induction ys as [|y ys IHy]; intros r; simpl; [discriminate|].
      destruct (String.get (snd ov) y); [apply IHy|discriminate]. }
    destruct (scan_ywords xc (snd ov) ys true) as [[|]| |] eqn:E; simpl.
    + apply IH.
    + apply IH.
    + discriminate.
    + exfalso. now apply (Hs true).
Qed.

Lemma revise_returns (x y : Var) (s : State) : revise cw x y s <> OutOfFuel.
Proof.
  unfold revise. destruct (overlaps cw x y); [|discriminate].
  unfold bind, gets. apply revise_loop_returns.
Qed.

(** The budget [ac3] gives its loop is never exhausted. *)
Lemma ac3_loop_enough_fuel (fuel : nat) (queue : list (Var * Var)) (s : State) :
  (forall X Y, In (X, Y) queue -> In X (variables cw)) ->
  ac3_fuel cw queue (domains s) <= fuel ->
  ac3_loop cw fuel queue s <> OutOfFuel.
Proof.
  revert queue s; induction fuel as [|f IH]; intros [|[X Y] q] s Hq Hf; simpl;
    try discriminate.
  - unfold ac3_fuel in Hf. simpl in Hf. lia.
  - unfold bind at 1.
    destruct (revise cw X Y s) as [[b s1]| |] eqn:Hrev; try discriminate.
    2:{ exfalso. now apply (revise_returns X Y s). }
    assert (HX : In X (variables cw)) by (apply (Hq X Y); now left).
    destruct (overlaps cw X Y) as [[i j]|] eqn:Hov.
    + destruct (revise_ok cw X Y i j b s s1 Hov Hrev)
        as (Hoth & _ & _ & Hsame & _ & Hlt & _).
      destruct b.
      * unfold bind at 1, gets at 1.
        destruct (List.length (domains s1 X) =? 0); [discriminate|].
        apply IH.
        -- intros Z W Hin. apply in_app_or in Hin. destruct Hin as [Hin|Hin].
           ++ apply (Hq Z W). now right.
           ++ apply in_arcs_into in Hin. destruct Hin as (_ & HZ & _).
              now apply in_neighbors in HZ.
        -- apply (fuel_after_revision X Y q (domains s)); auto.
      * rewrite (Hsame eq_refl). apply IH.
        -- intros Z W Hin. apply (Hq Z W). now right.
        -- unfold ac3_fuel in *. simpl in Hf. lia.
    + rewrite (revise_no_overlap cw X Y s Hov) in Hrev.
      injection Hrev as <- <-. apply IH.
      * intros Z W Hin. apply (Hq Z W). now right.
      * unfold ac3_fuel in *. simpl in Hf. lia.
Qed.

Lemma ac3_returns (s : State) : ac3 cw None s <> OutOfFuel.
Proof.
  unfold ac3, bind, gets. apply ac3_loop_enough_fuel; [|lia].
  intros X Y HXY. now apply in_all_arcs in HXY.
Qed.

Lemma ac3_loop_sound (fuel : nat) (queue : list (Var * Var)) (s s' : State) :
  symmetric_overlaps cw -> irreflexive_overlaps cw ->
  (forall X Y, In (X, Y) queue -> In X (variables cw) /\ In Y (neighbors cw X)) ->
  pending_or_consistent cw queue (domains s) ->
  ac3_loop cw fuel queue s = Ok (true, s') ->
  pending_or_consistent cw [] (domains s').
Proof.
  intros Hsym Hirr.
  revert queue s; induction fuel as [|f IH]; intros [|[X Y] q] s Hq Hinv; simpl;
    try discriminate.
  - unfold ret. now intros [= <-].
  - unfold ret. now intros [= <-].
  - destruct (Hq X Y (or_introl eq_refl)) as [HX HY].
    apply in_neighbors in HY. destruct HY as (HY & i & j & Hov).
    assert (HXY : X <> Y).
    { intros ->. rewrite (Hirr Y HY) in Hov. discriminate. }
    unfold bind at 1.
    destruct (revise cw X Y s) as [[b s1]| |] eqn:Hrev; try discriminate.
    destruct (revise_ok cw X Y i j b s s1 Hov Hrev)
      as (Hoth & Hdom & Hb & Hsame & _).
    assert (HdY : domains s1 Y = domains s Y).
    { apply Hoth. apply Var_eqb_neq. congruence. }
    destruct b.
    + unfold bind at 1, gets at 1.
      destruct (List.length (domains s1 X) =? 0); [discriminate|].
      apply IH.
      * intros Z W Hin. apply in_app_or in Hin. destruct Hin as [Hin|Hin].
        -- apply Hq. now right.
        -- apply in_arcs_into in Hin. destruct Hin as (-> & HZ & _).
           apply in_neighbors in HZ. destruct HZ as (HZ & i' & j' & HovZ).
           split; [assumption|]. apply in_neighbors. split; [assumption|].
           exists j', i'. now apply Hsym.
      * intros x y i' j' Hx Hy Hov'.
        destruct (Var_eq_dec y X) as [->|HyX].
        -- destruct (Var_eq_dec x Y) as [->|HxY].
           ++ pose proof (Hsym X Y i j HX HY Hov) as Hov2.
              rewrite Hov2 in Hov'. injection Hov' as <- <-.
              destruct (Hinv Y X j i HY HX Hov2) as [[Heq|Hin]|Hac].
              ** injection Heq as ->. congruence.
              ** left. apply in_or_app. now left.
              ** right. intros v Hv. rewrite HdY in Hv.
                 destruct (Hac v Hv) as (w & c & Hw & Hvc & Hwc).
                 exists w, c. repeat split; try assumption.
                 apply Hdom. split; [assumption|]. exists v, c. auto.
           ++ left. apply in_or_app. right. apply in_arcs_into.
              split; [reflexivity|]. split; [|assumption].
              apply in_neighbors. split; [assumption|].
              exists j', i'. now apply Hsym.
        -- assert (Hdy : domains s1 y = domains s y).
           { apply Hoth. now apply Var_eqb_neq. }
           assert (Hsub : forall w, In w (domains s1 x) -> In w (domains s x)).
           { intros w Hw. destruct (Var_eqb x X) eqn:E.
             - apply Var_eqb_eq in E; subst. now apply Hdom in Hw.
             - now rewrite (Hoth x E) in Hw. }
           destruct (Hinv x y i' j' Hx Hy Hov') as [[Heq|Hin]|Hac].
           ++ injection Heq as <- <-. rewrite Hov in Hov'.
              injection Hov' as <- <-.
              right. intros w Hw. rewrite HdY. now apply Hdom in Hw.
           ++ left. apply in_or_app. now left.
           ++ right. intros w Hw. rewrite Hdy. apply Hac. now apply Hsub.
    + rewrite (Hsame eq_refl) in *. apply IH.
      * intros Z W Hin. apply Hq. now right.
      * intros x y i' j' Hx Hy Hov'.
        destruct (Hinv x y i' j' Hx Hy Hov') as [[Heq|Hin]|Hac]; auto.
        injection Heq as <- <-. rewrite Hov in Hov'. injection Hov' as <- <-.
        right. intros w Hw. now apply Hdom in Hw.
Qed.

End AC3.

(** C6.  When [ac3()] is called without arcs and returns [True], every word
    [w] left in the domain of a slot [x] has, for every neighbor [y] of [x]
    with overlap [(i, j)], a word [v] in [y]'s domain with [w[i] == v[j]].
    The overlap table is the symmetric one of the puzzle module, in which no
    slot overlaps itself. *)
Theorem ac3_establishes_arc_consistency (cw : Crossword) (s s' : State) :
  symmetric_overlaps cw ->
  irreflexive_overlaps cw ->
  ac3 cw None s = Ok (true, s') ->
  forall x y i j,
    In x (variables cw) ->
    In y (neighbors cw x) ->
    overlaps cw x y = Some (i, j) ->
    forall w, In w (domains s' x) ->
      exists v, In v (domains s' y)
                /\ exists c, String.get i w = Some c /\ String.get j v = Some c.
Proof.
  intros Hsym Hirr Hrun x y i j Hx Hy Hov w Hw.
  unfold ac3, bind, gets in Hrun.
  assert (Hinv : pending_or_consistent cw [] (domains s')).
  { eapply ac3_loop_sound; eauto.
    - intros X Y HXY. now apply in_all_arcs in HXY.
    - intros x' y' i' j' Hx' Hy' Hov'. left. apply in_all_arcs.
      split; [assumption|]. apply in_neighbors. eauto. }
  apply in_neighbors in Hy. destruct Hy as [Hy _].
  destruct (Hinv x y i j Hx Hy Hov) as [[]|Hac].
  destruct (Hac w Hw) as (v & c & Hv & Hwc & Hvc).
  exists v. split; [assumption|]. exists c. auto.
Qed.

Lemma cross_puzzle_symmetric : symmetric_overlaps cross_puzzle.
Proof.
  intros x y i j Hx Hy. slot_cases; vm_compute; intros [= <- <-]; reflexivity.
Defined.

Lemma cross_puzzle_irreflexive : irreflexive_overlaps cross_puzzle.
Proof. intros x Hx. slot_cases; reflexivity. Defined.

Lemma cross_puzzle_in_bounds : in_bounds_overlaps cross_puzzle.
Proof.
  intros x y i j Hx Hy. slot_cases; vm_compute; intros [= <- <-]; auto.
Defined.

Lemma ac3_establishes_arc_consistency_witness :
  symmetric_overlaps cross_puzzle
  /\ irreflexive_overlaps cross_puzzle
  /\ ac3 cross_puzzle None cross_start = Ok (true, prepared cross_puzzle)
  /\ forall w, In w (domains (prepared cross_puzzle) cross_down) ->
       exists v, In v (domains (prepared cross_puzzle) cross_across)
                 /\ exists c, String.get 1 w = Some c /\ String.get 0 v = Some c.
Proof.
  assert (Hrun : ac3 cross_puzzle None cross_start
                 = Ok (true, prepared cross_puzzle))
    by (vm_compute; reflexivity).
  split; [exact cross_puzzle_symmetric|].
  split; [exact cross_puzzle_irreflexive|].
  split; [exact Hrun|].
  apply (ac3_establishes_arc_consistency
           cross_puzzle cross_start (prepared cross_puzzle)
           cross_puzzle_symmetric cross_puzzle_irreflexive Hrun
           cross_down cross_across 1 0).
  - simpl; auto.
  - vm_compute; auto.
  - reflexivity.
Defined.

(** C5, on the code: the domain of the lone slot is empty when [ac3] starts,
    no arc ever enters the queue, and [ac3] returns [True] with that domain
    still empty. *)
Theorem ac3_true_with_empty_domain :
  In lone_slot (variables lone_puzzle)
  /\ domains lone_start lone_slot = []
  /\ ac3 lone_puzzle None lone_start = Ok (true, prepared lone_puzzle)
  /\ domains (prepared lone_puzzle) lone_slot = [].
Proof.
  split; [simpl; auto|].
  repeat (split; [vm_compute; reflexivity|]). vm_compute; reflexivity.
Qed.

(** C3, on the code: in the crossing pair, after node and arc consistency,
    the down slot may take AAB (cost 1: the across slot, unassigned, still
    holds AAB) or BAC (cost 0); [order_domain_values] lists AAB first, in
    whatever order the vocabulary and the slots are listed. *)
Theorem order_domain_values_highest_cost_first :
  domains (prepared cross_puzzle) cross_down = ["AAB"; "BAC"]
  /\ cost cross_puzzle (prepared cross_puzzle) [] cross_down "AAB" = 1
  /\ cost cross_puzzle (prepared cross_puzzle) [] cross_down "BAC" = 0
  /\ order_domain_values cross_puzzle (prepared cross_puzzle) cross_down []
     = ["AAB"; "BAC"]
  /\ forallb
       (fun vs =>
          forallb
            (fun ws =>
               let cw := puzzle vs ws in
               match order_domain_values cw (prepared cw) cross_down [] with
               | [w1; w2] =>
                   String.eqb w1 "AAB" && String.eqb w2 "BAC"
                   && (cost cw (prepared cw) [] cross_down w1 =? 1)
                   && (cost cw (prepared cw) [] cross_down w2 =? 0)
               | _ => false
               end)
            (orders cross_words))
       (orders [cross_across; cross_down]) = true.
Proof.
  repeat (split; [vm_compute; reflexivity|]). vm_compute; reflexivity.
Qed.

(** C4, on the code: in the frame, after node and arc consistency, each foot
    has one candidate, each column two and the top row three.  The two feet
    tie for the minimum, but the tie list also receives a column (its right
    neighbor in the sorted list has as many candidates), and the column has
    more neighbors: [select_unassigned_variable] returns a slot with two
    candidates, in whatever order the slots are listed. *)
Theorem select_unassigned_variable_not_minimum :
  ac3 (puzzle frame_slots frame_words) None
      (final_state (init (puzzle frame_slots frame_words))
         (enforce_node_consistency (puzzle frame_slots frame_words)
            (init (puzzle frame_slots frame_words))))
  = Ok (true, prepared (puzzle frame_slots frame_words))
  /\ map (fun v => List.length (domains (prepared (puzzle frame_slots frame_words)) v))
         frame_slots = [3; 2; 2; 1; 1]
  /\ map (fun v => List.length (neighbors (puzzle frame_slots frame_words) v))
         frame_slots = [2; 2; 2; 1; 1]
  /\ select_unassigned_variable (puzzle frame_slots frame_words)
       (prepared (puzzle frame_slots frame_words)) [] = Ok frame_right
  /\ forallb
       (fun vs =>
          let cw := puzzle vs frame_words in
          match select_unassigned_variable cw (prepared cw) [] with
          | Ok v =>
              (List.length (domains (prepared cw) v) =? 2)
              && (List.length (domains (prepared cw) frame_foot_left) =? 1)
          | _ => false
          end)
       (orders frame_slots) = true.
Proof.
  repeat (split; [vm_compute; reflexivity|]). vm_compute; reflexivity.
Qed.

(** ** Lists, sorting and dictionaries *)

Lemma filter_filter {A : Type} (f g : A -> bool) (l : list A) :
  filter f (filter g l) = filter (fun x => g x && f x) l.
Proof.
  induction l as [|x l IH]; simpl; [reflexivity|].
  destruct (g x); simpl; [destruct (f x)|]; now rewrite IH.
Qed.

Lemma filter_length_mono {A : Type} (f g : A -> bool) (l : list A) (x : A) :
  (forall y, g y = true -> f y = true) ->
  In x l -> f x = true -> g x = false ->
  List.length (filter g l) < List.length (filter f l).
Proof.
  intros Hgf.
  assert (Hle : forall l', List.length (filter g l') <= List.length (filter f l')).
  { induction l' as [|y l' IH]; simpl; [lia|].
    destruct (g y) eqn:Eg; [rewrite (Hgf y Eg); simpl; lia|].
    destruct (f y); simpl; lia. }
  induction l as [|y l IH]; simpl; [tauto|].
  intros [->|Hin] Hf Hg.
  - rewrite Hf, Hg. simpl. specialize (Hle l). lia.
  - specialize (IH Hin Hf Hg).
    destruct (g y) eqn:Eg; [rewrite (Hgf y Eg); simpl; lia|].
    destruct (f y); simpl; lia.
Qed.

Lemma insert_asc_perm {A : Type} (key : A -> nat) (x : A) (l : list A) :
  Permutation (x :: l) (insert_asc key x l).
Proof.
  induction l as [|y l IH]; simpl; [reflexivity|].
  destruct (key x <=? key y); [reflexivity|].
  rewrite perm_swap. now constructor.
Qed.

Lemma sort_asc_perm {A : Type} (key : A -> nat) (l : list A) :
  Permutation l (sort_asc key l).
Proof.
  induction l as [|x l IH]; simpl; [reflexivity|].
  rewrite <- insert_asc_perm. now constructor.
Qed.

Lemma insert_desc_perm {A : Type} (key : A -> nat) (x : A) (l : list A) :
  Permutation (x :: l) (insert_desc key x l).
Proof.
  induction l as [|y l IH]; simpl; [reflexivity|].
  destruct (key y <=? key x); [reflexivity|].
  rewrite perm_swap. now constructor.
Qed.

Lemma sort_desc_perm {A : Type} (key : A -> nat) (l : list A) :
  Permutation l (sort_desc key l).
Proof.
  induction l as [|x l IH]; simpl; [reflexivity|].
  rewrite <- insert_desc_perm. now constructor.
Qed.

Lemma mem_In (x : Var) (l : list Var) : mem x l = true <-> In x l.
Proof.
  unfold mem. rewrite existsb_exists. split.
  - intros (k & Hk & E). apply Var_eqb_eq in E. now subst.
  - intros H. exists x. split; [assumption|apply Var_eqb_refl].
Qed.

Lemma mem_not_In (x : Var) (l : list Var) : mem x l = false <-> ~ In x l.
Proof.
  rewrite <- mem_In. destruct (mem x l); split; congruence.
Qed.

Lemma in_assignment_mem (a : Assignment) (x : Var) :
  in_assignment a x = mem x (map fst a).
Proof.
  unfold in_assignment, mem. induction a as [|[k w] a IH]; simpl; [reflexivity|].
  now rewrite IH.
Qed.

Lemma in_assignment_In (a : Assignment) (x : Var) :
  in_assignment a x = true <-> In x (map fst a).
Proof. rewrite in_assignment_mem. apply mem_In. Qed.

Lemma in_assignment_app (a b : Assignment) (x : Var) :
  in_assignment (a ++ b) x = in_assignment a x || in_assignment b x.
Proof. unfold in_assignment. apply existsb_app. Qed.

Lemma lookup_In (a : Assignment) (x : Var) (w : string) :
  lookup a x = Some w -> In (x, w) a.
Proof.
  induction a as [|[k v] a IH]; simpl; [discriminate|].
  destruct (Var_eqb k x) eqn:E.
  - apply Var_eqb_eq in E. intros [= <-]. subst. now left.
  - intros H. right. now apply IH.
Qed.

Lemma set_item_fresh (a : Assignment) (x : Var) (w : string) :
  in_assignment a x = false -> set_item a x w = a ++ [(x, w)].
Proof.
  unfold in_assignment.
  induction a as [|[k v] a IH]; simpl; [reflexivity|].
  intros H. apply orb_false_iff in H. destruct H as [E H].
  rewrite E. now rewrite IH.
Qed.

Lemma del_item_fresh (a : Assignment) (x : Var) (w : string) :
  in_assignment a x = false -> del_item (a ++ [(x, w)]) x = Ok a.
Proof.
  unfold in_assignment.
  induction a as [|[k v] a IH]; simpl.
  - now rewrite Var_eqb_refl.
  - intros H. apply orb_false_iff in H. destruct H as [E H].
    rewrite E. now rewrite IH.
Qed.

Lemma list_remove_filter (x : Var) (l : list Var) :
  NoDup l -> In x l ->
  list_remove x l = Ok (filter (fun y => negb (Var_eqb y x)) l).
Proof.
  induction l as [|y l IH]; simpl; [tauto|].
  intros Hnd Hin. inversion Hnd as [|? ? Hy Hnd']; subst.
  destruct (Var_eqb y x) eqn:E; simpl.
  - apply Var_eqb_eq in E; subst. f_equal.
    symmetry. apply forallb_filter_id. apply forallb_forall.
    intros z Hz. apply negb_true_iff, Var_eqb_neq. intros ->. contradiction.
  - destruct Hin as [->|Hin]; [now rewrite Var_eqb_refl in E|].
    now rewrite (IH Hnd' Hin).
Qed.

Lemma remove_if_key_absent (var : Var) (keys vn : list Var) :
  ~ In var keys -> remove_if_key var keys vn = Ok vn.
Proof.
  induction keys as [|key keys IH]; simpl; [reflexivity|].
  intros H. destruct (Var_eqb var key) eqn:E.
  - apply Var_eqb_eq in E. subst. tauto.
  - apply IH. tauto.
Qed.

Lemma remove_if_key_present (var : Var) (keys vn : list Var) :
  NoDup keys -> In var keys -> NoDup vn -> In var vn ->
  remove_if_key var keys vn = Ok (filter (fun y => negb (Var_eqb y var)) vn).
Proof.
  induction keys as [|key keys IH]; simpl; [tauto|].
  intros Hnd Hin Hvn Hv. inversion Hnd as [|? ? Hk Hnd']; subst.
  destruct (Var_eqb var key) eqn:E.
  - apply Var_eqb_eq in E. subst key.
    rewrite (list_remove_filter var vn Hvn Hv). simpl.
    now apply remove_if_key_absent.
  - destruct Hin as [->|Hin]; [now rewrite Var_eqb_refl in E|].
    now apply IH.
Qed.

Lemma remove_assigned_filter (vs keys vn : list Var) :
  NoDup keys -> NoDup vs -> NoDup vn -> incl vs vn ->
  remove_assigned vs keys vn
  = Ok (filter (fun y => negb (mem y vs && mem y keys)) vn).
Proof.
  intros Hk. revert vn; induction vs as [|var vs IH]; intros vn Hvs Hvn Hincl; simpl.
  - f_equal. symmetry. apply forallb_filter_id. now apply forallb_forall.
  - inversion Hvs as [|? ? Hvar Hvs']; subst.
    assert (Hv : In var vn) by (apply Hincl; now left).
    destruct (mem var keys) eqn:Em.
    + rewrite (remove_if_key_present var keys vn Hk (proj1 (mem_In _ _) Em) Hvn Hv).
      simpl. rewrite IH.
      * f_equal. rewrite filter_filter. apply filter_ext_in.
        intros y Hy. rewrite (Var_eqb_sym_bool y var).
        destruct (Var_eqb var y) eqn:E; simpl; [|reflexivity].
        apply Var_eqb_eq in E. subst y. simpl. now rewrite Em.
      * assumption.
      * now apply NoDup_filter.
      * intros z Hz. apply filter_In. split; [apply Hincl; now right|].
        apply negb_true_iff, Var_eqb_neq. intros ->. contradiction.
    + rewrite remove_if_key_absent by now apply mem_not_In.
      simpl. rewrite IH; try assumption.
      * f_equal. apply filter_ext_in. intros y Hy.
        destruct (Var_eqb var y) eqn:E; simpl; [|reflexivity].
        apply Var_eqb_eq in E. subst y. simpl. now rewrite Em, ?andb_false_r.
      * intros z Hz. apply Hincl. now right.
Qed.

(** ** Search: the helpers of [backtrack] *)

Section SearchFacts.

Variable cw : Crossword.

Lemma in_unassigned (a : Assignment) (v : Var) :
  In v (unassigned cw a) <-> In v (variables cw) /\ ~ In v (map fst a).
Proof.
  unfold unassigned. rewrite filter_In, negb_true_iff, in_assignment_mem.
  now rewrite mem_not_In.
Qed.

Lemma remove_assigned_unassigned (a : Assignment) :
  NoDup (variables cw) -> NoDup (map fst a) ->
  remove_assigned (variables cw) (map fst a) (variables cw) = Ok (unassigned cw a).
Proof.
  intros Hv Hk.
  rewrite remove_assigned_filter; try assumption; [|apply incl_refl].
  f_equal. apply filter_ext_in. intros y Hy.
  rewrite in_assignment_mem.
  now rewrite (proj2 (mem_In y (variables cw)) Hy).
Qed.

Lemma unassigned_shrinks (a : Assignment) (var : Var) (w : string) :
  In var (unassigned cw a) ->
  List.length (unassigned cw (a ++ [(var, w)])) < List.length (unassigned cw a).
Proof.
  intros Hin. unfold unassigned in *.
  apply filter_In in Hin. destruct Hin as [Hv Hn].
  apply filter_length_mono with (x := var); try assumption.
  - intros y. rewrite in_assignment_app, negb_orb, andb_true_iff. tauto.
  - rewrite in_assignment_app. simpl. now rewrite Var_eqb_refl, !orb_true_r.
Qed.

Lemma unassigned_after (a : Assignment) (var v : Var) (w : string) :
  In v (unassigned cw a) -> v <> var -> In v (unassigned cw (a ++ [(var, w)])).
Proof.
  rewrite !in_unassigned, map_app, in_app_iff. simpl. intros [Hv Hn] Hne.
  split; [assumption|]. intros [H|[H|[]]]; [tauto|congruence].
Qed.

(** An incomplete assignment over slots of the puzzle leaves a slot out. *)
Lemma incomplete_unassigned (a : Assignment) :
  NoDup (variables cw) -> NoDup (map fst a) ->
  incl (map fst a) (variables cw) ->
  assignment_complete cw a = false ->
  unassigned cw a <> [].
Proof.
  intros Hv Hk Hincl Hc Hnil.
  unfold assignment_complete in Hc. apply Nat.eqb_neq in Hc.
  pose proof (NoDup_incl_length Hk Hincl) as Hle.
  rewrite length_map in Hle.
  assert (Hincl' : incl (variables cw) (map fst a)).
  { intros v Hin. destruct (in_dec Var_eq_dec v (map fst a)) as [|Hn]; [assumption|].
    assert (Hu : In v (unassigned cw a)) by now apply in_unassigned.
    rewrite Hnil in Hu. destruct Hu. }
  pose proof (NoDup_incl_length Hv Hincl') as Hle'.
  rewrite length_map in Hle'. lia.
Qed.

Lemma adjacent_ties_incl (l : list VarDict) (t : VarDict) :
  In t (adjacent_ties l) -> In t l.
Proof.
  induction l as [|v [|v' rest] IH]; simpl; try tauto.
  destruct (vd_mrv v =? vd_mrv v'); simpl in *; intros H.
  - destruct H as [H|H]; [auto|]. right. now apply IH.
  - right. now apply IH.
Qed.

(** [select_unassigned_variable] returns a slot that is not assigned yet. *)
Lemma select_unassigned (s : State) (a : Assignment) (v : Var) :
  NoDup (variables cw) -> NoDup (map fst a) ->
  select_unassigned_variable cw s a = Ok v ->
  In v (unassigned cw a).
Proof.
  intros Hv Hk. unfold select_unassigned_variable.
  rewrite (remove_assigned_unassigned a Hv Hk). cbn [rbind].
  set (vds := sort_asc vd_mrv _).
  assert (Hin : forall t, In t vds -> In (vd_var t) (unassigned cw a)).
  { intros t Ht. unfold vds in Ht.
    apply (Permutation_in _ (Permutation_sym (sort_asc_perm _ _))) in Ht.
    apply in_map_iff in Ht. destruct Ht as (x & <- & Hx). exact Hx. }
  destruct vds as [|v0 [|v1 rest]] eqn:E; [discriminate| |].
  - intros [= <-]. apply Hin. now left.
  - destruct (negb (vd_mrv v0 =? vd_mrv v1)).
    + intros [= <-]. apply Hin. now left.
    + destruct (sort_desc vd_degree (v0 :: adjacent_ties (v0 :: v1 :: rest)))
        as [|t ts] eqn:Es; [discriminate|].
      intros [= <-]. apply Hin.
      assert (Ht : In t (sort_desc vd_degree
                           (v0 :: adjacent_ties (v0 :: v1 :: rest))))
        by (rewrite Es; now left).
      apply (Permutation_in _ (Permutation_sym (sort_desc_perm _ _))) in Ht.
      destruct Ht as [<-|Ht]; [now left|]. now apply adjacent_ties_incl.
Qed.

Lemma select_total (s : State) (a : Assignment) :
  NoDup (variables cw) -> NoDup (map fst a) ->
  unassigned cw a <> [] ->
  exists v, select_unassigned_variable cw s a = Ok v.
Proof.
  intros Hv Hk Hne. unfold select_unassigned_variable.
  rewrite (remove_assigned_unassigned a Hv Hk). cbn [rbind].
  set (vds := sort_asc vd_mrv _).
  assert (Hlen : vds <> []).
  { unfold vds. intros Hnil.
    pose proof (Permutation_length (sort_asc_perm vd_mrv
      (map (fun var => mkVarDict var (List.length (domains s var))
                                 (List.length (neighbors cw var)))
           (unassigned cw a)))) as Hp.
    rewrite Hnil, length_map in Hp. simpl in Hp.
    destruct (unassigned cw a); [congruence|discriminate]. }
  destruct vds as [|v0 [|v1 rest]]; [congruence|eauto|].
  destruct (negb (vd_mrv v0 =? vd_mrv v1)); [eauto|].
  destruct (sort_desc vd_degree (v0 :: adjacent_ties (v0 :: v1 :: rest)))
    as [|t ts] eqn:Es; [|eauto].
  pose proof (Permutation_length (sort_desc_perm vd_degree
    (v0 :: adjacent_ties (v0 :: v1 :: rest)))) as Hp.
  rewrite Es in Hp. discriminate.
Qed.

Lemma select_returns (s : State) (a : Assignment) :
  NoDup (variables cw) -> NoDup (map fst a) ->
  select_unassigned_variable cw s a <> OutOfFuel.
Proof.
  intros Hv Hk. unfold select_unassigned_variable.
  rewrite (remove_assigned_unassigned a Hv Hk). cbn [rbind].
  destruct (sort_asc vd_mrv _) as [|v0 [|v1 rest]]; try discriminate.
  destruct (negb _); [discriminate|].
  destruct (sort_desc _ _); discriminate.
Qed.

(** [order_domain_values] returns the words of the domain, reordered. *)
Lemma order_domain_values_perm (s : State) (var : Var) (a : Assignment) :
  Permutation (domains s var) (order_domain_values cw s var a).
Proof.
  unfold order_domain_values.
  rewrite <- (sort_desc_perm snd). rewrite map_map. simpl. now rewrite map_id.
Qed.

(** What [consistent] has checked when it answers [True]. *)
Lemma check_neighbors_true (a : Assignment) (x : Var) (w : string) (nbs : list Var) :
  check_neighbors cw a x w nbs = Ok true ->
  forall y wy, In y nbs -> lookup a y = Some wy ->
    exists i j c, overlaps cw x y = Some (i, j)
                  /\ String.get i w = Some c /\ String.get j wy = Some c.
Proof.
  induction nbs as [|nb nbs IH]; simpl; [intros _ ? ? []|].
  destruct (lookup a nb) as [nw|] eqn:El.
  - destruct (overlaps cw x nb) as [[i j]|] eqn:Eo; [|discriminate]. simpl.
    destruct (String.get i w) as [c1|] eqn:E1; [|discriminate].
    destruct (String.get j nw) as [c2|] eqn:E2; [|discriminate].
    destruct (Ascii.eqb c1 c2) eqn:Ec; [|discriminate].
    apply Ascii.eqb_eq in Ec. subst c2.
    intros H y wy [<-|Hin] Hy.
    + rewrite El in Hy. injection Hy as <-. exists i, j, c1. auto.
    + now apply (IH H y wy).
  - intros H y wy [<-|Hin] Hy; [congruence|]. now apply (IH H y wy).
Qed.

Lemma consistent_loop_true (a es : Assignment) (dist : list string) :
  consistent_loop cw a es dist = Ok true ->
  (forall x w, In (x, w) es ->
     String.length w = var_length x
     /\ check_neighbors cw a x w (neighbors cw x) = Ok true)
  /\ (NoDup dist -> NoDup (dist ++ map snd es)).
Proof.
  revert dist; induction es as [|[x w] es IH]; intros dist; simpl.
  - intros _. split; [intros ? ? []|]. now rewrite app_nil_r.
  - destruct (existsb (String.eqb w) dist) eqn:Ed; [discriminate|].
    destruct (String.length w =? var_length x) eqn:El; [|discriminate]. simpl.
    apply Nat.eqb_eq in El.
    destruct (check_neighbors cw a x w (neighbors cw x)) as [[|]| |] eqn:Ec;
      simpl; try discriminate.
    intros H. apply IH in H. destruct H as [Hes Hnd].
    split.
    + intros y v [[= <- <-]|Hin]; [auto|now apply Hes].
    + intros Hdist. rewrite <- app_assoc in Hnd. simpl in Hnd. apply Hnd.
      apply (Permutation_NoDup (Permutation_cons_append dist w)).
      constructor; [|assumption].
      intros Hin.
      assert (Ht : existsb (String.eqb w) dist = true).
      { apply existsb_exists. exists w. split; [assumption|apply String.eqb_refl]. }
      congruence.
Qed.

Lemma check_neighbors_returns (a : Assignment) (x : Var) (w : string) (nbs : list Var) :
  check_neighbors cw a x w nbs <> OutOfFuel.
Proof.
  induction nbs as [|nb nbs IH]; simpl; [discriminate|].
  destruct (lookup a nb); [|assumption].
  destruct (overlaps cw x nb) as [[i j]|]; [|discriminate]. simpl.
  destruct (String.get i w); [|discriminate].
  destruct (String.get j s); [|discriminate].
  destruct (Ascii.eqb a0 a1); [assumption|discriminate].
Qed.

Lemma consistent_returns (a : Assignment) : consistent cw a <> OutOfFuel.
Proof.
  unfold consistent. generalize (@nil string). generalize a at 2.
  induction a0 as [|[x w] es IH]; intros dist; simpl; [discriminate|].
  destruct (existsb (String.eqb w) dist); [discriminate|].
  destruct (negb (String.length w =? var_length x)); [discriminate|].
  pose proof (check_neighbors_returns a x w (neighbors cw x)) as Hc.
  destruct (check_neighbors cw a x w (neighbors cw x)) as [[|]| |]; simpl;
    try discriminate; [apply IH|congruence].
Qed.

(** [consistent] raises nothing on words of the slots' lengths. *)
Lemma check_neighbors_total (a : Assignment) (x : Var) (w : string) (nbs : list Var) :
  in_bounds_overlaps cw -> lengths_match a ->
  In x (variables cw) -> String.length w = var_length x ->
  (forall y, In y nbs -> In y (neighbors cw x)) ->
  exists b, check_neighbors cw a x w nbs = Ok b.
Proof.
  intros Hb Hl Hx Hw.
  induction nbs as [|nb nbs IH]; intros Hn; simpl; [eauto|].
  assert (IH' : exists b, check_neighbors cw a x w nbs = Ok b)
    by (apply IH; intros y Hy; apply Hn; now right).
  assert (Hnb : In nb (neighbors cw x)) by (apply Hn; now left).
  apply in_neighbors in Hnb. destruct Hnb as (Hnb & i' & j' & Hov).
  destruct (lookup a nb) as [nw|] eqn:El; [|assumption].
  destruct (overlaps cw x nb) as [[i j]|] eqn:Eo.
  - destruct (Hb x nb i j Hx Hnb Eo) as [Hi Hj]. simpl.
    destruct (get_in_bounds w i) as [c1 ->]; [lia|].
    apply lookup_In in El. apply Hl in El.
    destruct (get_in_bounds nw j) as [c2 ->]; [lia|].
    destruct (Ascii.eqb c1 c2); eauto.
  - congruence.
Qed.

Lemma consistent_loop_total (a es : Assignment) (dist : list string) :
  in_bounds_overlaps cw -> lengths_match a ->
  incl (map fst es) (variables cw) -> lengths_match es ->
  exists b, consistent_loop cw a es dist = Ok b.
Proof.
  intros Hb Hl.
  revert dist; induction es as [|[x w] es IH]; intros dist Hk Hes; simpl; [eauto|].
  destruct (existsb (String.eqb w) dist); [eauto|].
  destruct (negb (String.length w =? var_length x)) eqn:El; [eauto|].
  apply negb_false_iff, Nat.eqb_eq in El.
  destruct (check_neighbors_total a x w (neighbors cw x) Hb Hl) as [b Hc];
    try assumption.
  - apply Hk. now left.
  - auto.
  - rewrite Hc. simpl. destruct b; [|eauto].
    apply IH.
    + intros y Hy. apply Hk. now right.
    + intros y v Hy. apply Hes. now right.
Qed.

Lemma consistent_total (a : Assignment) :
  in_bounds_overlaps cw -> lengths_match a ->
  incl (map fst a) (variables cw) ->
  exists b, consistent cw a = Ok b.
Proof.
  intros Hb Hl Hk. unfold consistent. now apply consistent_loop_total.
Qed.

End SearchFacts.

(** ** Search: [backtrack] *)

Section Backtracking.

Variable cw : Crossword.

(** One turn of the [for value in ...] loop, step by step. *)
Lemma try_values_cons (recurse : M (option Assignment)) (var : Var)
    (value : string) (rest : list string) (s : State) :
  try_values cw recurse var (value :: rest) s =
  let a1 := set_item (assignment s) var value in
  let s1 := mkState (domains s) a1 (backtrack_calls s) in
  match consistent cw a1 with
  | Ok true =>
      match recurse s1 with
      | Ok (Some r, s2) => Ok (Some r, s2)
      | Ok (None, s2) =>
          match del_item (assignment s2) var with
          | Ok a' =>
              try_values cw recurse var rest
                (mkState (domains s2) a' (backtrack_calls s2))
          | Raise e => Raise e
          | OutOfFuel => OutOfFuel
          end
      | Raise e => Raise e
      | OutOfFuel => OutOfFuel
      end
  | Ok false =>
      match del_item a1 var with
      | Ok a' =>
          try_values cw recurse var rest
            (mkState (domains s) a' (backtrack_calls s))
      | Raise e => Raise e
      | OutOfFuel => OutOfFuel
      end
  | Raise e => Raise e
  | OutOfFuel => OutOfFuel
  end.
Proof.
  cbn [try_values].
  unfold assign, unassign.
  unfold bind, gets, set_assignment, lift, rbind, ret.
  cbv beta iota zeta. cbn [domains assignment backtrack_calls].
  destruct (consistent cw (set_item (assignment s) var value)) as [[|]| |];
    try reflexivity.
  - destruct (recurse _) as [[[r|] s2]| |]; try reflexivity.
    destruct (del_item (assignment s2) var); reflexivity.
  - destruct (del_item _ var); reflexivity.
Qed.

Lemma backtrack_S (depth : nat) (s : State) :
  backtrack cw (S depth) s =
  let s0 := mkState (domains s) (assignment s) (S (backtrack_calls s)) in
  if assignment_complete cw (assignment s) then Ok (Some (assignment s), s0)
  else
    match select_unassigned_variable cw s0 (assignment s) with
    | Ok var =>
        try_values cw (backtrack cw depth) var
          (order_domain_values cw s0 var (assignment s)) s0
    | Raise e => Raise e
    | OutOfFuel => OutOfFuel
    end.
Proof.
  cbn [backtrack]. unfold bind, tick, gets, reads, lift, ret, rbind.
  cbv beta iota zeta. cbn [domains assignment backtrack_calls].
  destruct (assignment_complete cw (assignment s)); [reflexivity|].
  destruct (select_unassigned_variable cw _ (assignment s)); reflexivity.
Qed.

(** The search leaves the store alone and counts its calls. *)
Lemma try_values_frame (recurse : M (option Assignment)) (var : Var)
    (values : list string) :
  (forall s r s', recurse s = Ok (r, s') ->
     domains s' = domains s /\ backtrack_calls s <= backtrack_calls s') ->
  forall s r s',
    try_values cw recurse var values s = Ok (r, s') ->
    domains s' = domains s /\ backtrack_calls s <= backtrack_calls s'.
Proof.
  intros Hrec. induction values as [|value rest IH]; intros s r s'.
  - cbn. unfold ret. intros [= <- <-]. auto.
  - rewrite try_values_cons. cbn zeta.
    destruct (consistent cw _) as [[|]| |]; try discriminate.
    + destruct (recurse _) as [[[r2|] s2]| |] eqn:Er; try discriminate.
      * intros [= <- <-]. apply Hrec in Er. exact Er.
      * apply Hrec in Er. cbn in Er. destruct Er as [Hd Hc].
        destruct (del_item (assignment s2) var); try discriminate.
        intros H. apply IH in H. cbn in H. destruct H as [Hd' Hc'].
        split; [congruence|lia].
    + destruct (del_item _ var); try discriminate.
      intros H. apply IH in H. exact H.
Qed.

Lemma backtrack_frame (depth : nat) (s : State) (r : option Assignment)
    (s' : State) :
  backtrack cw depth s = Ok (r, s') ->
  domains s' = domains s /\ backtrack_calls s < backtrack_calls s'.
Proof.
  revert s r s'; induction depth as [|depth IH]; intros s r s'.
  - discriminate.
  - rewrite backtrack_S. cbn zeta.
    destruct (assignment_complete cw (assignment s)).
    + intros [= <- <-]. cbn. auto.
    + destruct (select_unassigned_variable cw _ _) as [var| |]; try discriminate.
      intros H. apply try_values_frame in H.
      * cbn in H. destruct H as [Hd Hc]. split; [assumption|lia].
      * intros s1 r1 s1' H1. apply IH in H1. destruct H1. split; [assumption|lia].
Qed.

(** A returned assignment is complete, and was checked by [consistent]
    unless it is the assignment the call started from. *)
Lemma try_values_sound (recurse : M (option Assignment)) (var : Var)
    (values : list string) :
  (forall s r s', recurse s = Ok (Some r, s') ->
     assignment_complete cw r = true
     /\ (r = assignment s \/ consistent cw r = Ok true)) ->
  forall s r s',
    try_values cw recurse var values s = Ok (Some r, s') ->
    assignment_complete cw r = true /\ consistent cw r = Ok true.
Proof.
  intros Hrec. induction values as [|value rest IH]; intros s r s'.
  - cbn. unfold ret. discriminate.
  - rewrite try_values_cons. cbn zeta.
    destruct (consistent cw _) as [[|]| |] eqn:Ec; try discriminate.
    + destruct (recurse _) as [[[r2|] s2]| |] eqn:Er; try discriminate.
      * intros [= <- <-]. apply Hrec in Er. cbn in Er.
        destruct Er as [Hc [->|Hr]]; auto.
      * destruct (del_item (assignment s2) var); try discriminate. apply IH.
    + destruct (del_item _ var); try discriminate. apply IH.
Qed.

Lemma backtrack_sound (depth : nat) (s : State) (r : Assignment) (s' : State) :
  backtrack cw depth s = Ok (Some r, s') ->
  assignment_complete cw r = true
  /\ (r = assignment s \/ consistent cw r = Ok true).
Proof.
  revert s r s'; induction depth as [|depth IH]; intros s r s'.
  - discriminate.
  - rewrite backtrack_S. cbn zeta.
    destruct (assignment_complete cw (assignment s)) eqn:Ec.
    + intros [= <- <-]. auto.
    + destruct (select_unassigned_variable cw _ _) as [var| |]; try discriminate.
      intros H. apply try_values_sound in H; [|exact IH].
      destruct H. auto.
Qed.

Lemma consistent_valid (a : Assignment) :
  consistent cw a = Ok true -> valid_assignment cw a.
Proof.
  unfold consistent. intros H. apply consistent_loop_true in H.
  destruct H as [Hes Hnd]. split; [|split].
  - apply (Hnd (NoDup_nil _)).
  - intros x w Hin. now apply Hes.
  - intros x y wx wy i j Hx Hy Hl Hov.
    destruct (Hes x wx Hx) as [_ Hc].
    destruct (check_neighbors_true cw a x wx (neighbors cw x) Hc y wy Hy Hl)
      as (i' & j' & c & Hov' & Hi & Hj).
    rewrite Hov in Hov'. injection Hov' as <- <-. eauto.
Qed.

End Backtracking.

(** ** Search: termination *)

Section Termination.

Variable cw : Crossword.

Hypothesis variables_NoDup : NoDup (variables cw).

Lemma complete_unassigned (a : Assignment) :
  NoDup (map fst a) -> incl (map fst a) (variables cw) ->
  assignment_complete cw a = true -> unassigned cw a = [].
Proof.
  intros Hk Hincl Hc. unfold assignment_complete in Hc. apply Nat.eqb_eq in Hc.
  assert (Hall : incl (variables cw) (map fst a)).
  { apply NoDup_length_incl; try assumption. rewrite length_map. lia. }
  unfold unassigned.
  destruct (filter _ (variables cw)) as [|v l] eqn:E; [reflexivity|].
  assert (Hv : In v (filter (fun v => negb (in_assignment a v)) (variables cw)))
    by (rewrite E; now left).
  apply filter_In in Hv. destruct Hv as [Hv Hn].
  apply negb_true_iff in Hn. rewrite in_assignment_mem in Hn.
  apply mem_not_In in Hn. exfalso. apply Hn. now apply Hall.
Qed.

Lemma well_formed_extend (d : Domains) (a : Assignment) (var : Var) (value : string) :
  well_formed cw d a -> In var (variables cw) -> In value (d var) ->
  well_formed cw d (a ++ [(var, value)]).
Proof.
  intros (Hb & Hn & Hk & Hl) Hvar Hval.
  split; [assumption|]. split; [assumption|]. split.
  - rewrite map_app. simpl. intros x Hx. apply in_app_or in Hx.
    destruct Hx as [Hx|[<-|[]]]; auto.
  - intros x w Hx. apply in_app_or in Hx.
    destruct Hx as [Hx|[[= <- <-]|[]]]; [now apply Hl|]. now apply Hn.
Qed.

Lemma blocked_extend (d : Domains) (a : Assignment) (var : Var) (value : string) :
  blocked cw d a -> In value (d var) -> blocked cw d (a ++ [(var, value)]).
Proof.
  intros (v & Hv & He) Hval. exists v. split; [|assumption].
  apply unassigned_after; [assumption|].
  intros ->. rewrite He in Hval. destruct Hval.
Qed.

Lemma try_values_runs (recurse : M (option Assignment)) (var : Var) (n : nat) :
  (forall s r s', recurse s = Ok (r, s') -> domains s' = domains s) ->
  (forall s, NoDup (map fst (assignment s)) ->
             List.length (unassigned cw (assignment s)) < n ->
             runs cw recurse s) ->
  forall values s,
    NoDup (map fst (assignment s)) ->
    In var (unassigned cw (assignment s)) ->
    List.length (unassigned cw (assignment s)) <= n ->
    (forall value, In value values -> In value (domains s var)) ->
    runs cw (try_values cw recurse var values) s.
Proof.
  intros Hframe Hrec.
  induction values as [|value rest IH]; intros s Hk Hvar Hm Hvals.
  - cbn. unfold ret. split; [discriminate|]. split.
    + now intros s' [= <-].
    + intros _. exists None, s. auto.
  - assert (Hfresh : in_assignment (assignment s) var = false).
    { apply in_unassigned in Hvar. rewrite in_assignment_mem.
      now apply mem_not_In. }
    assert (Hval : In value (domains s var)) by (apply Hvals; now left).
    assert (Hrest : forall v, In v rest -> In v (domains s var))
      by (intros v Hv; apply Hvals; now right).
    assert (Hvarv : In var (variables cw)) by now apply in_unassigned in Hvar.
    unfold runs. rewrite try_values_cons. cbn zeta.
    rewrite (set_item_fresh _ _ value Hfresh).
    rewrite (del_item_fresh _ _ value Hfresh).
    set (a := assignment s) in *.
    set (s1 := mkState (domains s) (a ++ [(var, value)]) (backtrack_calls s)).
    assert (IHs : forall s3, domains s3 = domains s -> assignment s3 = a ->
                    runs cw (try_values cw recurse var rest) s3).
    { intros s3 Hd Ha. apply IH; rewrite ?Ha, ?Hd; auto. }
    pose proof (consistent_returns cw (a ++ [(var, value)])) as Hcr.
    destruct (consistent cw (a ++ [(var, value)])) as [[|]| |] eqn:Ec;
      [| | |congruence].
    + (* the extension is consistent: recursive call *)
      assert (Hk1 : NoDup (map fst (assignment s1))).
      { cbn. rewrite map_app. simpl.
        apply (Permutation_NoDup (Permutation_cons_append _ _)).
        constructor; [|assumption]. now apply in_unassigned in Hvar. }
      assert (Hm1 : List.length (unassigned cw (assignment s1)) < n).
      { cbn. pose proof (unassigned_shrinks cw a var value Hvar). fold a in Hm. lia. }
      destruct (Hrec s1 Hk1 Hm1) as (H1 & H2 & H3). cbn in H2, H3.
      destruct (recurse s1) as [[[r|] s2]| |] eqn:Er; [| | |congruence].
      * split; [discriminate|]. split; [discriminate|].
        intros Hwf. exists (Some r), s2. split; [reflexivity|].
        intros Hbl. destruct H3 as (r' & s' & Heq & Hnone).
        { now apply well_formed_extend. }
        injection Heq as <- <-. apply Hnone. now apply blocked_extend.
      * rewrite (H2 s2 eq_refl). rewrite (del_item_fresh _ _ value Hfresh).
        assert (Hd2 : domains s2 = domains s) by apply (Hframe s1 None s2 Er).
        rewrite Hd2.
        destruct (IHs (mkState (domains s) a (backtrack_calls s2)))
          as (I1 & I2 & I3); [reflexivity|reflexivity|].
        split; [assumption|]. split; assumption.
      * split; [discriminate|]. split; [discriminate|].
        intros Hwf. destruct H3 as (r' & s' & Heq & _); [|discriminate].
        now apply well_formed_extend.
    + (* the extension is rejected *)
      destruct (IHs (mkState (domains s) a (backtrack_calls s)))
        as (I1 & I2 & I3); [reflexivity|reflexivity|].
      split; [assumption|]. split; assumption.
    + split; [discriminate|]. split; [discriminate|].
      intros Hwf.
      destruct (well_formed_extend (domains s) a var value Hwf Hvarv Hval)
        as (Hb & _ & Hk' & Hl').
      destruct (consistent_total cw (a ++ [(var, value)]) Hb Hl' Hk') as [b Hb'].
      congruence.
Qed.

Lemma backtrack_runs (depth : nat) (s : State) :
  NoDup (map fst (assignment s)) ->
  List.length (unassigned cw (assignment s)) < depth ->
  runs cw (backtrack cw depth) s.
Proof.
  revert s; induction depth as [|depth IH]; intros s Hk Hm; [lia|].
  unfold runs. rewrite backtrack_S. cbn zeta.
  set (s0 := mkState (domains s) (assignment s) (S (backtrack_calls s))).
  destruct (assignment_complete cw (assignment s)) eqn:Ec.
  - split; [discriminate|]. split; [discriminate|].
    intros (_ & _ & Hincl & _). exists (Some (assignment s)), s0.
    split; [reflexivity|]. intros (v & Hv & _).
    rewrite (complete_unassigned _ Hk Hincl Ec) in Hv. destruct Hv.
  - pose proof (select_returns cw s0 (assignment s) variables_NoDup Hk) as Hsr.
    destruct (select_unassigned_variable cw s0 (assignment s)) as [var| |] eqn:Es;
      [| |congruence].
    + apply (select_unassigned cw s0 _ var variables_NoDup Hk) in Es.
      apply (try_values_runs (backtrack cw depth) var depth) with (s := s0).
      * intros s1 r s1' H. now apply backtrack_frame in H.
      * exact IH.
      * exact Hk.
      * exact Es.
      * cbn. lia.
      * intros value Hv.
        apply (Permutation_in _
                 (Permutation_sym (order_domain_values_perm cw s0 var _))) in Hv.
        exact Hv.
    + split; [discriminate|]. split; [discriminate|].
      intros (_ & _ & Hincl & _).
      destruct (select_total cw s0 (assignment s) variables_NoDup Hk) as [v Hv].
      * now apply incomplete_unassigned.
      * congruence.
Qed.

End Termination.

(** ** The claims about the search *)

(** C10.  A call to [backtrack] that returns (an assignment or [None])
    leaves the domain store as it found it. *)
Theorem backtrack_leaves_domains_unchanged (cw : Crossword) (depth : nat)
    (s : State) (r : option Assignment) (s' : State) :
  backtrack cw depth s = Ok (r, s') -> domains s' = domains s.
Proof. intros H. now apply backtrack_frame in H. Qed.

Lemma backtrack_leaves_domains_unchanged_witness :
  backtrack cross_puzzle 3 (prepared cross_puzzle)
  = Ok (Some cross_solution,
        final_state (prepared cross_puzzle)
          (backtrack cross_puzzle 3 (prepared cross_puzzle)))
  /\ domains (final_state (prepared cross_puzzle)
                (backtrack cross_puzzle 3 (prepared cross_puzzle)))
     = domains (prepared cross_puzzle).
Proof.
  assert (Hrun : backtrack cross_puzzle 3 (prepared cross_puzzle)
                 = Ok (Some cross_solution,
                       final_state (prepared cross_puzzle)
                         (backtrack cross_puzzle 3 (prepared cross_puzzle))))
    by (vm_compute; reflexivity).
  split; [exact Hrun|].
  exact (backtrack_leaves_domains_unchanged cross_puzzle 3
           (prepared cross_puzzle) (Some cross_solution) _ Hrun).
Defined.

(** C8.  On an assignment whose keys are slots of the puzzle, [backtrack]
    ends within a nesting of calls of one more than the number of unassigned
    slots; what it returns is [None] or a complete assignment; and it does
    return (it raises nothing) when offsets lie within the slots, the store
    is node consistent and the assigned words have the lengths of their
    slots. *)
Theorem backtrack_terminates (cw : Crossword) (s : State) (depth : nat) :
  NoDup (variables cw) ->
  NoDup (map fst (assignment s)) ->
  incl (map fst (assignment s)) (variables cw) ->
  List.length (unassigned cw (assignment s)) < depth ->
  backtrack cw depth s <> OutOfFuel
  /\ (forall r s', backtrack cw depth s = Ok (r, s') ->
        match r with
        | Some a => assignment_complete cw a = true
        | None => True
        end)
  /\ (in_bounds_overlaps cw -> node_consistent cw (domains s) ->
      lengths_match (assignment s) ->
      exists r s', backtrack cw depth s = Ok (r, s')).
Proof.
  intros Hv Hk Hincl Hm.
  destruct (backtrack_runs cw Hv depth s Hk Hm) as (H1 & _ & H3).
  split; [assumption|]. split.
  - intros [a|] s' H; [|exact I]. now apply backtrack_sound in H.
  - intros Hb Hn Hl.
    destruct H3 as (r & s' & H & _);
      [exact (conj Hb (conj Hn (conj Hincl Hl)))|eauto].
Qed.

Lemma cross_prepared_node_consistent :
  node_consistent cross_puzzle (domains (prepared cross_puzzle)).
Proof.
  intros v w Hv Hw. slot_cases; vm_compute in Hw;
    repeat (destruct Hw as [<-|Hw]; [reflexivity|]); destruct Hw.
Defined.

Lemma backtrack_terminates_witness :
  backtrack cross_puzzle 3 (prepared cross_puzzle) <> OutOfFuel
  /\ exists r s', backtrack cross_puzzle 3 (prepared cross_puzzle) = Ok (r, s').
Proof.
  assert (Hv : NoDup (variables cross_puzzle)) by nodup_slots.
  assert (Hk : NoDup (map fst (assignment (prepared cross_puzzle))))
    by constructor.
  assert (Hincl : incl (map fst (assignment (prepared cross_puzzle)))
                       (variables cross_puzzle))
    by (intros x []).
  assert (Hm : List.length (unassigned cross_puzzle
                              (assignment (prepared cross_puzzle))) < 3)
    by (vm_compute; lia).
  destruct (backtrack_terminates cross_puzzle (prepared cross_puzzle) 3
              Hv Hk Hincl Hm) as (H1 & _ & H3).
  split; [exact H1|].
  apply H3.
  - exact cross_puzzle_in_bounds.
  - exact cross_prepared_node_consistent.
  - intros x w [].
Defined.

(** C2.  An assignment returned by [solve()] has a word for as many slots as
    the puzzle has, its words are pairwise distinct, each has the length of
    its slot, and the words of two assigned neighboring slots agree at the
    offsets of their overlap.  The same holds for what [backtrack] returns
    from an assignment that is incomplete, or that [consistent] accepts. *)
Theorem returned_assignment_is_valid (cw : Crossword) :
  (forall r s',
     solve cw (init cw) = Ok (Some r, s') ->
     assignment_complete cw r = true /\ valid_assignment cw r)
  /\ (forall depth s r s',
        assignment_complete cw (assignment s) = false
        \/ consistent cw (assignment s) = Ok true ->
        backtrack cw depth s = Ok (Some r, s') ->
        assignment_complete cw r = true /\ valid_assignment cw r).
Proof.
  assert (Hbt : forall depth s r s',
            assignment_complete cw (assignment s) = false
            \/ consistent cw (assignment s) = Ok true ->
            backtrack cw depth s = Ok (Some r, s') ->
            assignment_complete cw r = true /\ valid_assignment cw r).
  { intros depth s r s' Hs H. apply backtrack_sound in H.
    destruct H as [Hc [->|Hr]].
    - split; [assumption|]. apply consistent_valid.
      destruct Hs as [Hs|Hs]; [congruence|assumption].
    - split; [assumption|]. now apply consistent_valid. }
  split; [|exact Hbt].
  intros r s'. unfold solve. unfold bind at 1.
  destruct (enforce_node_consistency cw (init cw)) as [[[] s1]| |];
    try discriminate.
  unfold bind at 1.
  destruct (ac3 cw None s1) as [[b s2]| |]; try discriminate.
  unfold bind at 1, set_assignment at 1.
  apply Hbt. right. reflexivity.
Qed.

Lemma returned_assignment_is_valid_witness :
  solve cross_puzzle (init cross_puzzle)
  = Ok (Some cross_solution,
        final_state (init cross_puzzle) (solve cross_puzzle (init cross_puzzle)))
  /\ assignment_complete cross_puzzle cross_solution = true
  /\ valid_assignment cross_puzzle cross_solution.
Proof.
  assert (Hrun : solve cross_puzzle (init cross_puzzle)
                 = Ok (Some cross_solution,
                       final_state (init cross_puzzle)
                         (solve cross_puzzle (init cross_puzzle))))
    by (vm_compute; reflexivity).
  split; [exact Hrun|].
  exact (proj1 (returned_assignment_is_valid cross_puzzle)
           cross_solution _ Hrun).
Defined.

(** ** [solve] *)

Section Solve.

Variable cw : Crossword.

Hypothesis overlaps_in_bounds : in_bounds_overlaps cw.

(** On a node-consistent store [ac3] raises nothing; it only removes words,
    and when it answers [False] some slot has no word left. *)
Lemma ac3_loop_total (fuel : nat) (queue : list (Var * Var)) (s : State) :
  node_consistent cw (domains s) ->
  (forall X Y, In (X, Y) queue -> In X (variables cw) /\ In Y (variables cw)) ->
  ac3_fuel cw queue (domains s) <= fuel ->
  exists b s',
    ac3_loop cw fuel queue s = Ok (b, s')
    /\ (forall v w, In w (domains s' v) -> In w (domains s v))
    /\ assignment s' = assignment s
    /\ backtrack_calls s' = backtrack_calls s
    /\ (b = false -> exists v, In v (variables cw) /\ domains s' v = []).
Proof.
  revert queue s; induction fuel as [|f IH]; intros [|[X Y] q] s Hn Hq Hf; simpl.
  - exists true, s. unfold ret. repeat split; auto; discriminate.
  - unfold ac3_fuel in Hf. simpl in Hf. lia.
  - exists true, s. unfold ret. repeat split; auto; discriminate.
  - destruct (Hq X Y (or_introl eq_refl)) as [HX HY].
    assert (Hq' : forall Z W, In (Z, W) q ->
                    In Z (variables cw) /\ In W (variables cw))
      by (intros Z W Hin; apply Hq; now right).
    unfold bind at 1.
    destruct (overlaps cw X Y) as [[i j]|] eqn:Hov.
    + destruct (revise_total cw X Y s) as (b & s1 & Hrev).
      { intros i' j' Hov'. rewrite Hov in Hov'. injection Hov' as <- <-.
        destruct (overlaps_in_bounds X Y i j HX HY Hov) as [Hi Hj].
        split; intros w Hw; [rewrite (Hn X w HX Hw)|rewrite (Hn Y w HY Hw)];
          assumption. }
      rewrite Hrev.
      destruct (revise_ok cw X Y i j b s s1 Hov Hrev)
        as (Hoth & Hdom & _ & Hsame & _ & Hlt & Ha & Hc).
      assert (Hsub : forall v w, In w (domains s1 v) -> In w (domains s v)).
      { intros v w Hw. destruct (Var_eqb v X) eqn:E.
        - apply Var_eqb_eq in E; subst. now apply Hdom in Hw.
        - now rewrite (Hoth v E) in Hw. }
      assert (Hn1 : node_consistent cw (domains s1)).
      { intros v w Hv Hw. apply Hn; auto. }
      destruct b.
      * unfold bind at 1, gets at 1.
        destruct (List.length (domains s1 X) =? 0) eqn:El.
        -- exists false, s1. unfold ret. repeat split; auto.
           intros _. exists X. split; [assumption|].
           apply Nat.eqb_eq in El. now apply length_zero_iff_nil.
        -- destruct (IH (q ++ arcs_into cw X Y) s1 Hn1)
             as (b' & s' & Hrun & Hsub' & Ha' & Hc' & He').
           ++ intros Z W Hin. apply in_app_or in Hin. destruct Hin as [Hin|Hin].
              ** now apply Hq'.
              ** apply in_arcs_into in Hin. destruct Hin as (-> & HZ & _).
                 apply in_neighbors in HZ. tauto.
           ++ apply (fuel_after_revision cw X Y q (domains s)); auto.
           ++ exists b', s'. repeat split; auto; congruence.
      * rewrite (Hsame eq_refl). apply IH; auto.
        unfold ac3_fuel in *. simpl in Hf. lia.
    + rewrite (revise_no_overlap cw X Y s Hov). apply IH; auto.
      unfold ac3_fuel in *. simpl in Hf. lia.
Qed.

Lemma ac3_total (s : State) :
  node_consistent cw (domains s) ->
  exists b s',
    ac3 cw None s = Ok (b, s')
    /\ (forall v w, In w (domains s' v) -> In w (domains s v))
    /\ assignment s' = assignment s
    /\ backtrack_calls s' = backtrack_calls s
    /\ (b = false -> exists v, In v (variables cw) /\ domains s' v = []).
Proof.
  intros Hn. unfold ac3, bind, gets. apply ac3_loop_total; auto.
  intros X Y HXY. apply in_all_arcs in HXY. destruct HXY as [HX HY].
  apply in_neighbors in HY. tauto.
Qed.

Hypothesis variables_NoDup : NoDup (variables cw).

(** [solve()] on a store in which consistency left a slot without words. *)
Lemma solve_blocked (s1 s2 : State) (b : bool) :
  enforce_node_consistency cw (init cw) = Ok (tt, s1) ->
  ac3 cw None s1 = Ok (b, s2) ->
  (exists v, In v (variables cw) /\ domains s2 v = []) ->
  exists s', solve cw (init cw) = Ok (None, s') /\ 0 < backtrack_calls s'.
Proof.
  intros Henf Hac (v & Hv & He).
  destruct (enforce_node_consistency_spec cw (init cw))
    as (s1' & Henf' & Hdom1 & _).
  rewrite Henf in Henf'. injection Henf' as <-.
  assert (Hn1 : node_consistent cw (domains s1)).
  { intros x w Hx Hw. apply Hdom1 in Hw. tauto. }
  destruct (ac3_total s1 Hn1) as (b' & s2' & Hac' & Hsub & _).
  rewrite Hac in Hac'. injection Hac' as <- <-.
  assert (Hn2 : node_consistent cw (domains s2)).
  { intros x w Hx Hw. apply Hn1; auto. }
  set (s3 := mkState (domains s2) [] (backtrack_calls s2)).
  assert (Hk : NoDup (map fst (assignment s3))) by constructor.
  assert (Hm : List.length (unassigned cw (assignment s3))
               < S (List.length (variables cw))).
  { unfold unassigned.
    pose proof (filter_length_le (fun v => negb (in_assignment (assignment s3) v))
                  (variables cw)). lia. }
  destruct (backtrack_runs cw variables_NoDup _ s3 Hk Hm) as (_ & _ & H3).
  destruct H3 as (r & s' & Hrun & Hnone).
  { split; [assumption|]. split; [assumption|].
    split; [intros x []|intros x w []]. }
  assert (Hr : r = None).
  { apply Hnone. exists v. split; [|assumption].
    apply in_unassigned. split; [assumption|]. intros []. }
  subst r. exists s'. split.
  - unfold solve. unfold bind at 1. rewrite Henf.
    unfold bind at 1. rewrite Hac.
    unfold bind at 1, set_assignment at 1. exact Hrun.
  - apply backtrack_frame in Hrun. lia.
Qed.

End Solve.

(** C1, as stated, fails on the code: in both puzzles consistency leaves a
    slot without words ([ac3] answers [False] in the second), and [solve()]
    answers [None] only after a call to [backtrack]. *)
Lemma solve_always_calls_backtrack :
  ~ ((exists v, In v (variables lone_puzzle) /\ domains lone_start v = []) ->
     exists s', solve lone_puzzle (init lone_puzzle) = Ok (None, s')
                /\ backtrack_calls s' = 0)
  /\ ~ ((exists s1 s2,
           enforce_node_consistency clash_puzzle (init clash_puzzle) = Ok (tt, s1)
           /\ ac3 clash_puzzle None s1 = Ok (false, s2)) ->
        exists s', solve clash_puzzle (init clash_puzzle) = Ok (None, s')
                   /\ backtrack_calls s' = 0).
Proof.
  split.
  - intros H. destruct H as (s' & Hs & Hc).
    + exists lone_slot. split; [simpl; auto|reflexivity].
    + assert (Hrun : solve lone_puzzle (init lone_puzzle)
                     = Ok (None, final_state (init lone_puzzle)
                                   (solve lone_puzzle (init lone_puzzle))))
        by (vm_compute; reflexivity).
      rewrite Hrun in Hs. injection Hs as <-.
      vm_compute in Hc. discriminate.
  - intros H. destruct H as (s' & Hs & Hc).
    + exists (final_state (init clash_puzzle)
                (enforce_node_consistency clash_puzzle (init clash_puzzle))).
      exists (prepared clash_puzzle).
      split; vm_compute; reflexivity.
    + assert (Hrun : solve clash_puzzle (init clash_puzzle)
                     = Ok (None, final_state (init clash_puzzle)
                                   (solve clash_puzzle (init clash_puzzle))))
        by (vm_compute; reflexivity).
      rewrite Hrun in Hs. injection Hs as <-.
      vm_compute in Hc. discriminate.
Qed.

(** C1, amended.  [solve()] drops the answer of [ac3] and always calls
    [backtrack] on an empty assignment.  When consistency has left a slot
    without words (node consistency found no word of its length, or [ac3]
    answered [False]), that search answers [None].  The puzzle is one whose
    overlap offsets lie within its slots. *)
Theorem solve_reports_no_solution_after_search (cw : Crossword) :
  NoDup (variables cw) ->
  in_bounds_overlaps cw ->
  (exists v, In v (variables cw)
             /\ forall w, In w (words cw) -> String.length w <> var_length v)
  \/ (exists s1 s2,
        enforce_node_consistency cw (init cw) = Ok (tt, s1)
        /\ ac3 cw None s1 = Ok (false, s2)) ->
  exists s', solve cw (init cw) = Ok (None, s') /\ 0 < backtrack_calls s'.
Proof.
  intros Hnd Hb H.
  destruct (enforce_node_consistency_spec cw (init cw))
    as (s1 & Henf & Hdom1 & _).
  assert (Hn1 : node_consistent cw (domains s1)).
  { intros x w Hx Hw. apply Hdom1 in Hw. tauto. }
  destruct (ac3_total cw Hb s1 Hn1) as (b & s2 & Hac & Hsub & _ & _ & Hfalse).
  apply (solve_blocked cw Hb Hnd s1 s2 b Henf Hac).
  destruct H as [(v & Hv & Hw)|(s1' & s2' & Henf' & Hac')].
  - exists v. split; [assumption|].
    destruct (domains s2 v) as [|w l] eqn:E; [reflexivity|].
    exfalso. assert (Hin : In w (domains s2 v)) by (rewrite E; now left).
    apply Hsub, Hdom1 in Hin. simpl in Hin. destruct Hin as [Hin Hlen].
    apply (Hw w Hin). auto.
  - rewrite Henf in Henf'. injection Henf' as <-.
    rewrite Hac in Hac'. injection Hac' as -> <-. now apply Hfalse.
Qed.

Lemma clash_puzzle_in_bounds : in_bounds_overlaps clash_puzzle.
Proof.
  intros x y i j Hx Hy. slot_cases; vm_compute; intros [= <- <-]; auto.
Defined.

Lemma solve_reports_no_solution_after_search_witness :
  exists s', solve clash_puzzle (init clash_puzzle) = Ok (None, s')
             /\ 0 < backtrack_calls s'.
Proof.
  apply (solve_reports_no_solution_after_search clash_puzzle).
  - nodup_slots.
  - exact clash_puzzle_in_bounds.
  - right.
    exists (final_state (init clash_puzzle)
              (enforce_node_consistency clash_puzzle (init clash_puzzle))).
    exists (prepared clash_puzzle).
    split; vm_compute; reflexivity.
Defined.

(** * Further properties of the code *)

(** ** Sorting *)

Lemma insert_desc_sorted {A : Type} (key : A -> nat) (x : A) (l : list A) :
  StronglySorted (fun a b => key b <= key a) l ->
  StronglySorted (fun a b => key b <= key a) (insert_desc key x l).
Proof.
  induction l as [|y l IH]; simpl; intros Hs.
  - constructor; [constructor|constructor].
  - inversion Hs as [|? ? Hl Hy]; subst.
    destruct (key y <=? key x) eqn:E.
    + apply Nat.leb_le in E. constructor; [assumption|].
      constructor; [assumption|].
      eapply Forall_impl; [|exact Hy]. simpl. intros z Hz. lia.
    + apply Nat.leb_gt in E. constructor; [now apply IH|].
      apply (Permutation_Forall (insert_desc_perm key x l)).
      constructor; [lia|assumption].
Qed.

Lemma sort_desc_sorted {A : Type} (key : A -> nat) (l : list A) :
  StronglySorted (fun a b => key b <= key a) (sort_desc key l).
Proof.
  induction l as [|x l IH]; simpl; [constructor|].
  now apply insert_desc_sorted.
Qed.

Lemma insert_asc_sorted {A : Type} (key : A -> nat) (x : A) (l : list A) :
  StronglySorted (fun a b => key a <= key b) l ->
  StronglySorted (fun a b => key a <= key b) (insert_asc key x l).
Proof.
  induction l as [|y l IH]; simpl; intros Hs.
  - constructor; [constructor|constructor].
  - inversion Hs as [|? ? Hl Hy]; subst.
    destruct (key x <=? key y) eqn:E.
    + apply Nat.leb_le in E. constructor; [assumption|].
      constructor; [assumption|].
      eapply Forall_impl; [|exact Hy]. simpl. intros z Hz. lia.
    + apply Nat.leb_gt in E. constructor; [now apply IH|].
      apply (Permutation_Forall (insert_asc_perm key x l)).
      constructor; [lia|assumption].
Qed.

Lemma sort_asc_sorted {A : Type} (key : A -> nat) (l : list A) :
  StronglySorted (fun a b => key a <= key b) (sort_asc key l).
Proof.
  induction l as [|x l IH]; simpl; [constructor|].
  now apply insert_asc_sorted.
Qed.

Lemma StronglySorted_map {A B : Type} (f : A -> B) (R : A -> A -> Prop)
    (Q : B -> B -> Prop) (l : list A) :
  (forall a b, In a l -> In b l -> R a b -> Q (f a) (f b)) ->
  StronglySorted R l -> StronglySorted Q (map f l).
Proof.
  induction l as [|x l IH]; simpl; intros HRQ Hs; [constructor|].
  inversion Hs as [|? ? Hl Hx]; subst. constructor.
  - apply IH; [|assumption]. intros a b Ha Hb. apply HRQ; now right.
  - apply Forall_map. apply Forall_forall. intros y Hy.
    apply HRQ; [now left|now right|].
    now apply (proj1 (Forall_forall _ _) Hx).
Qed.

(** X1.  [order_domain_values(var, assignment)] returns the words of
    [var]'s domain, each as often as the domain lists it, in an order of
    non-increasing cost (the cost being the number of equal words in the
    domains of [var]'s unassigned neighbors). *)
Theorem order_domain_values_sorts_by_decreasing_cost (cw : Crossword)
    (s : State) (var : Var) (a : Assignment) :
  Permutation (domains s var) (order_domain_values cw s var a)
  /\ StronglySorted (fun w1 w2 => cost cw s a var w2 <= cost cw s a var w1)
       (order_domain_values cw s var a).
Proof.
  split.
  - unfold order_domain_values.
    rewrite <- (sort_desc_perm snd). rewrite map_map. simpl. now rewrite map_id.
  - unfold order_domain_values.
    set (vd := map (fun value => (value, cost cw s a var value)) (domains s var)).
    apply StronglySorted_map
      with (R := fun p q : string * nat => snd q <= snd p);
      [|apply sort_desc_sorted].
    assert (Hvd : forall p, In p (sort_desc snd vd) ->
                    snd p = cost cw s a var (fst p)).
    { intros p Hp.
      apply (Permutation_in _ (Permutation_sym (sort_desc_perm snd vd))) in Hp.
      unfold vd in Hp. apply in_map_iff in Hp.
      destruct Hp as (w & <- & _). reflexivity. }
    intros p q Hp Hq Hpq. rewrite <- (Hvd p Hp), <- (Hvd q Hq). exact Hpq.
Qed.

(** ** [select_unassigned_variable] *)

Section Select.

Variable cw : Crossword.
Variable s : State.
Variable a : Assignment.

Hypothesis variables_NoDup : NoDup (variables cw).
Hypothesis keys_NoDup : NoDup (map fst a).

(** The list [variables] of the method, after [variables.sort(key=get_mrv)]. *)
Lemma select_sorted_list :
  exists vds,
    select_unassigned_variable cw s a =
      match vds with
      | [] => Raise IndexError
      | [v] => Ok (vd_var v)
      | v0 :: v1 :: _ =>
          if negb (vd_mrv v0 =? vd_mrv v1) then Ok (vd_var v0)
          else
            match sort_desc vd_degree (v0 :: adjacent_ties vds) with
            | t :: _ => Ok (vd_var t)
            | [] => Raise IndexError
            end
      end
    /\ Permutation
         (map (fun var => mkVarDict var (List.length (domains s var))
                                    (List.length (neighbors cw var)))
              (unassigned cw a)) vds
    /\ StronglySorted (fun t t' => vd_mrv t <= vd_mrv t') vds
    /\ NoDup vds
    /\ (forall t, In t vds ->
          In (vd_var t) (unassigned cw a)
          /\ t = mkVarDict (vd_var t) (List.length (domains s (vd_var t)))
                           (List.length (neighbors cw (vd_var t)))).
Proof.
  set (mk := fun var => mkVarDict var (List.length (domains s var))
                                  (List.length (neighbors cw var))).
  exists (sort_asc vd_mrv (map mk (unassigned cw a))).
  assert (Hperm : Permutation (map mk (unassigned cw a))
                    (sort_asc vd_mrv (map mk (unassigned cw a))))
    by apply sort_asc_perm.
  split; [|split; [exact Hperm|split; [apply sort_asc_sorted|split]]].
  - unfold select_unassigned_variable.
    rewrite (remove_assigned_unassigned cw a variables_NoDup keys_NoDup).
    cbn [rbind]. fold mk.
    destruct (sort_asc vd_mrv (map mk (unassigned cw a))) as [|v0 [|v1 rest]];
      reflexivity.
  - apply (Permutation_NoDup Hperm).
    apply (NoDup_map_inv vd_var). rewrite map_map. simpl. rewrite map_id.
    apply NoDup_filter. exact variables_NoDup.
  - intros t Ht. apply (Permutation_in _ (Permutation_sym Hperm)) in Ht.
    apply in_map_iff in Ht. destruct Ht as (x & <- & Hx). simpl. auto.
Qed.

Lemma adjacent_ties_all_tied (l : list VarDict) :
  (forall t t', In t l -> In t' l -> vd_mrv t = vd_mrv t') ->
  adjacent_ties l = tl l.
Proof.
  induction l as [|v [|v' rest] IH]; simpl; intros Ht; try reflexivity.
  rewrite (Ht v v') by (simpl; auto). rewrite Nat.eqb_refl.
  f_equal. apply IH. intros t t' H1 H2. apply Ht; now right.
Qed.

End Select.

(** X2.  With distinct slots and distinct keys, the slot returned by
    [select_unassigned_variable] is a slot of the puzzle that is no key of
    the assignment. *)
Theorem select_unassigned_variable_returns_unassigned (cw : Crossword)
    (s : State) (a : Assignment) (v : Var) :
  NoDup (variables cw) -> NoDup (map fst a) ->
  select_unassigned_variable cw s a = Ok v ->
  In v (variables cw) /\ ~ In v (map fst a).
Proof.
  intros Hv Hk Hsel. apply in_unassigned. now apply (select_unassigned cw s).
Qed.

Lemma select_unassigned_variable_returns_unassigned_witness :
  select_unassigned_variable cross_puzzle (prepared cross_puzzle)
    [(cross_down, "BAC")] = Ok cross_across
  /\ In cross_across (variables cross_puzzle)
  /\ ~ In cross_across (map fst [(cross_down, "BAC")]).
Proof.
  assert (Hsel : select_unassigned_variable cross_puzzle (prepared cross_puzzle)
                   [(cross_down, "BAC")] = Ok cross_across)
    by (vm_compute; reflexivity).
  split; [exact Hsel|].
  apply (select_unassigned_variable_returns_unassigned cross_puzzle
           (prepared cross_puzzle) [(cross_down, "BAC")] cross_across).
  - nodup_slots.
  - nodup_slots.
  - exact Hsel.
Defined.

(** X3.  When every slot of the puzzle is a key of the assignment,
    [select_unassigned_variable] raises [IndexError] (from [variables[0]] on
    the empty list). *)
Theorem select_unassigned_variable_raises_when_all_assigned (cw : Crossword)
    (s : State) (a : Assignment) :
  NoDup (variables cw) -> NoDup (map fst a) ->
  (forall v, In v (variables cw) -> In v (map fst a)) ->
  select_unassigned_variable cw s a = Raise IndexError.
Proof.
  intros Hv Hk Hall.
  destruct (select_sorted_list cw s a Hv Hk) as (vds & Heq & Hperm & _).
  assert (Hnil : unassigned cw a = []).
  { destruct (unassigned cw a) as [|x l] eqn:E; [reflexivity|].
    assert (Hx : In x (unassigned cw a)) by (rewrite E; now left).
    apply in_unassigned in Hx. destruct Hx as [Hx Hn]. exfalso. auto. }
  rewrite Hnil in Hperm. simpl in Hperm. apply Permutation_nil in Hperm.
  subst vds. exact Heq.
Qed.

Lemma select_unassigned_variable_raises_when_all_assigned_witness :
  select_unassigned_variable cross_puzzle (prepared cross_puzzle) cross_solution
  = Raise IndexError.
Proof.
  apply (select_unassigned_variable_raises_when_all_assigned cross_puzzle).
  - nodup_slots.
  - nodup_slots.
  - intros v Hv. slot_cases; simpl; auto.
Defined.

(** X4.  When one unassigned slot has strictly fewer words in its domain
    than every other unassigned slot, [select_unassigned_variable] returns
    it. *)
Theorem select_unassigned_variable_unique_minimum (cw : Crossword)
    (s : State) (a : Assignment) (u : Var) :
  NoDup (variables cw) -> NoDup (map fst a) ->
  In u (unassigned cw a) ->
  (forall x, In x (unassigned cw a) -> x <> u ->
     List.length (domains s u) < List.length (domains s x)) ->
  select_unassigned_variable cw s a = Ok u.
Proof.
  intros Hv Hk Hu Hmin.
  destruct (select_sorted_list cw s a Hv Hk)
    as (vds & Heq & Hperm & Hsort & Hnd & Hel).
  rewrite Heq. clear Heq.
  set (mu := mkVarDict u (List.length (domains s u))
                       (List.length (neighbors cw u))).
  assert (Hmu : In mu vds).
  { apply (Permutation_in _ Hperm). apply in_map_iff. exists u. auto. }
  assert (Hother : forall t, In t vds -> t <> mu -> vd_mrv mu < vd_mrv t).
  { intros t Ht Hne. destruct (Hel t Ht) as [Hin Hform].
    rewrite Hform. simpl. apply Hmin; [assumption|].
    intros E. apply Hne. rewrite Hform, E. reflexivity. }
  destruct vds as [|v0 [|v1 rest]].
  - destruct Hmu.
  - destruct Hmu as [E|[]]. rewrite E. reflexivity.
  - inversion Hsort as [|? ? Hs' Hall]; subst.
    inversion Hnd as [|? ? Hnot Hnd']; subst.
    assert (H0 : v0 = mu).
    { destruct Hmu as [E|Hin]; [assumption|].
      destruct (Var_eq_dec (vd_var v0) u) as [E|E].
      - destruct (Hel v0 (or_introl eq_refl)) as [_ Hform].
        rewrite Hform, E. reflexivity.
      - exfalso.
        assert (Hlt : vd_mrv mu < vd_mrv v0).
        { apply Hother; [now left|]. intros ->. apply E. reflexivity. }
        pose proof (proj1 (Forall_forall _ _) Hall mu Hin) as Hle.
        cbv beta in Hle. lia. }
    subst v0.
    assert (Hlt : vd_mrv mu < vd_mrv v1).
    { apply Hother; [right; now left|]. intros ->. apply Hnot. now left. }
    destruct (vd_mrv mu =? vd_mrv v1) eqn:E.
    + apply Nat.eqb_eq in E. lia.
    + reflexivity.
Qed.

Lemma select_unassigned_variable_unique_minimum_witness :
  select_unassigned_variable cross_puzzle (prepared cross_puzzle) []
  = Ok cross_across.
Proof.
  apply (select_unassigned_variable_unique_minimum cross_puzzle).
  - nodup_slots.
  - nodup_slots.
  - vm_compute. auto.
  - intros x Hx Hne. vm_compute in Hx.
    destruct Hx as [<-|[<-|[]]]; [exfalso; apply Hne; reflexivity|vm_compute; lia].
Defined.

(** X5.  When all unassigned slots have domains of the same size, the slot
    returned by [select_unassigned_variable] has at least as many neighbors
    as every unassigned slot. *)
Theorem select_unassigned_variable_all_tied_max_degree (cw : Crossword)
    (s : State) (a : Assignment) (v : Var) :
  NoDup (variables cw) -> NoDup (map fst a) ->
  (forall x y, In x (unassigned cw a) -> In y (unassigned cw a) ->
     List.length (domains s x) = List.length (domains s y)) ->
  select_unassigned_variable cw s a = Ok v ->
  forall x, In x (unassigned cw a) ->
    List.length (neighbors cw x) <= List.length (neighbors cw v).
Proof.
  intros Hv Hk Htie Hsel x Hx.
  destruct (select_sorted_list cw s a Hv Hk)
    as (vds & Heq & Hperm & _ & _ & Hel).
  rewrite Heq in Hsel. clear Heq.
  set (mx := mkVarDict x (List.length (domains s x))
                       (List.length (neighbors cw x))).
  assert (Hmx : In mx vds).
  { apply (Permutation_in _ Hperm). apply in_map_iff. exists x. auto. }
  assert (Hmrv : forall t t', In t vds -> In t' vds -> vd_mrv t = vd_mrv t').
  { intros t t' Ht Ht'.
    destruct (Hel t Ht) as [Hin Hf]. destruct (Hel t' Ht') as [Hin' Hf'].
    rewrite Hf, Hf'. simpl. now apply Htie. }
  destruct vds as [|v0 [|v1 rest]]; [discriminate| |].
  - injection Hsel as <-. destruct Hmx as [E|[]]. rewrite E. simpl. lia.
  - rewrite (Hmrv v0 v1) in Hsel by (simpl; auto).
    rewrite Nat.eqb_refl in Hsel. cbn [negb] in Hsel.
    rewrite (adjacent_ties_all_tied (v0 :: v1 :: rest) Hmrv) in Hsel.
    cbn [tl] in Hsel.
    pose proof (sort_desc_perm vd_degree (v0 :: v1 :: rest)) as Hp.
    pose proof (sort_desc_sorted vd_degree (v0 :: v1 :: rest)) as Hs.
    destruct (sort_desc vd_degree (v0 :: v1 :: rest)) as [|t ts];
      [discriminate|].
    injection Hsel as <-.
    assert (Ht : In t (v0 :: v1 :: rest))
      by (apply (Permutation_in _ (Permutation_sym Hp)); now left).
    destruct (Hel t Ht) as [_ Hft].
    assert (Hdeg : vd_degree mx <= vd_degree t).
    { apply (Permutation_in _ Hp) in Hmx. destruct Hmx as [<-|Hin]; [lia|].
      inversion Hs as [|? ? _ Hall]; subst.
      now apply (proj1 (Forall_forall _ _) Hall mx). }
    rewrite Hft in Hdeg. simpl in Hdeg. exact Hdeg.
Qed.

Lemma select_unassigned_variable_all_tied_max_degree_witness :
  select_unassigned_variable cross_puzzle (init cross_puzzle) []
  = Ok cross_across
  /\ List.length (neighbors cross_puzzle cross_down)
     <= List.length (neighbors cross_puzzle cross_across).
Proof.
  assert (Hsel : select_unassigned_variable cross_puzzle (init cross_puzzle) []
                 = Ok cross_across) by (vm_compute; reflexivity).
  split; [exact Hsel|].
  apply (select_unassigned_variable_all_tied_max_degree cross_puzzle
           (init cross_puzzle) [] cross_across).
  - nodup_slots.
  - nodup_slots.
  - intros x y Hx Hy. reflexivity.
  - exact Hsel.
  - vm_compute. auto.
Defined.

(** ** [consistent] *)

Lemma check_neighbors_complete (cw : Crossword) (a : Assignment) (x : Var)
    (w : string) (nbs : list Var) :
  (forall y wy, In y nbs -> lookup a y = Some wy ->
     exists i j c, overlaps cw x y = Some (i, j)
                   /\ String.get i w = Some c /\ String.get j wy = Some c) ->
  check_neighbors cw a x w nbs = Ok true.
Proof.
  induction nbs as [|nb nbs IH]; simpl; intros H; [reflexivity|].
  assert (IH' : check_neighbors cw a x w nbs = Ok true).
  { apply IH. intros y wy Hy. apply H. now right. }
  destruct (lookup a nb) as [nw|] eqn:El; [|assumption].
  destruct (H nb nw (or_introl eq_refl) El) as (i & j & c & Hov & Hi & Hj).
  rewrite Hov. simpl. rewrite Hi, Hj, Ascii.eqb_refl. assumption.
Qed.

Lemma consistent_loop_complete (cw : Crossword) (a es : Assignment)
    (dist : list string) :
  NoDup (dist ++ map snd es) ->
  (forall x w, In (x, w) es ->
     String.length w = var_length x
     /\ check_neighbors cw a x w (neighbors cw x) = Ok true) ->
  consistent_loop cw a es dist = Ok true.
Proof.
  revert dist; induction es as [|[x w] es IH]; intros dist Hnd Hes; simpl;
    [reflexivity|].
  simpl in Hnd.
  assert (Hw : existsb (String.eqb w) dist = false).
  { destruct (existsb (String.eqb w) dist) eqn:E; [|reflexivity].
    apply existsb_exists in E. destruct E as (u & Hu & E).
    apply String.eqb_eq in E. subst u.
    apply NoDup_remove_2 in Hnd. exfalso. apply Hnd.
    apply in_or_app. now left. }
  rewrite Hw.
  destruct (Hes x w (or_introl eq_refl)) as [Hl Hc].
  rewrite Hl, Nat.eqb_refl. simpl. rewrite Hc. simpl.
  apply IH.
  - rewrite <- app_assoc. exact Hnd.
  - intros y v Hy. apply Hes. now right.
Qed.

(** X6.  [consistent(assignment)] returns [True] exactly when the assigned
    words are pairwise distinct, each has the length of its slot, and for
    every assigned slot and every assigned neighbor of it the two words carry
    the same character at the offsets of their overlap. *)
Theorem consistent_true_iff_valid (cw : Crossword) (a : Assignment) :
  consistent cw a = Ok true <-> valid_assignment cw a.
Proof.
  split; [apply consistent_valid|].
  intros (Hnd & Hlen & Hov). unfold consistent.
  apply consistent_loop_complete; [exact Hnd|].
  intros x w Hin. split; [now apply Hlen|].
  apply check_neighbors_complete. intros y wy Hy Hl.
  pose proof Hy as Hy'. apply in_neighbors in Hy'.
  destruct Hy' as (_ & i & j & Ho).
  destruct (Hov x y w wy i j Hin Hy Hl Ho) as (c & Hi & Hj).
  exists i, j, c. auto.
Qed.

(** X7.  [consistent] raises no exception on an assignment whose keys are
    slots of the puzzle and whose words have the lengths of their slots, when
    the overlap offsets of the puzzle lie within its slots. *)
Theorem consistent_raises_nothing (cw : Crossword) (a : Assignment) :
  in_bounds_overlaps cw ->
  lengths_match a ->
  incl (map fst a) (variables cw) ->
  consistent cw a = Ok true \/ consistent cw a = Ok false.
Proof.
  intros Hb Hl Hk. destruct (consistent_total cw a Hb Hl Hk) as [[|] H]; auto.
Qed.

Lemma consistent_raises_nothing_witness :
  consistent cross_puzzle [(cross_across, "BAC"); (cross_down, "AAB")] = Ok true
  \/ consistent cross_puzzle [(cross_across, "BAC"); (cross_down, "AAB")]
     = Ok false.
Proof.
  apply (consistent_raises_nothing cross_puzzle).
  - exact cross_puzzle_in_bounds.
  - intros x w [[= <- <-]|[[= <- <-]|[]]]; reflexivity.
  - intros x [<-|[<-|[]]]; simpl; auto.
Defined.

(** ** Consistency enforcement run again *)

Lemma for_each_nothing_to_remove (var : Var) (ws : list string) (s : State) :
  (forall w, In w ws -> String.length w = var_length var) ->
  for_each ws (fun word =>
    if negb (String.length word =? var_length var)
    then remove_word var word else ret tt) s = Ok (tt, s).
Proof.
  induction ws as [|w ws IH]; intros H; simpl; [reflexivity|].
  unfold bind at 1.
  rewrite (H w (or_introl eq_refl)), Nat.eqb_refl. simpl.
  apply IH. intros u Hu. apply H. now right.
Qed.

Lemma enforce_nothing_to_remove (cw : Crossword) (s : State) :
  node_consistent cw (domains s) ->
  enforce_node_consistency cw s = Ok (tt, s).
Proof.
  unfold enforce_node_consistency, node_consistent.
  generalize (variables cw) as vs.
  induction vs as [|v vs IH]; intros H; simpl; [reflexivity|].
  unfold bind at 1. unfold bind at 1. unfold gets at 1.
  rewrite for_each_nothing_to_remove.
  - apply IH. intros x w Hx. apply H. now right.
  - intros w Hw. apply (H v w); [now left|assumption].
Qed.

(** X8.  [enforce_node_consistency] is idempotent: run on the store it has
    produced, it removes nothing more (the store is again the same). *)
Theorem enforce_node_consistency_idempotent (cw : Crossword) (s : State) :
  exists s',
    enforce_node_consistency cw s = Ok (tt, s')
    /\ enforce_node_consistency cw s' = Ok (tt, s').
Proof.
  destruct (enforce_node_consistency_spec cw s) as (s' & Hrun & Hdom & _).
  exists s'. split; [assumption|].
  apply enforce_nothing_to_remove.
  intros v w Hv Hw. apply Hdom in Hw. tauto.
Qed.

(** ** [ac3] run again, and what it never does *)

Lemma get_some_in_bounds (w : string) (n : nat) (c : ascii) :
  String.get n w = Some c -> n < String.length w.
Proof.
  revert n; induction w as [|a w IH]; intros n; simpl; [discriminate|].
  destruct n as [|n]; [lia|]. intros H. apply IH in H. lia.
Qed.

Section AC3Again.

Variable cw : Crossword.

Lemma revise_consistent_arc (x y : Var) (i j : nat) (s : State) :
  overlaps cw x y = Some (i, j) ->
  arc_consistent (domains s) x y i j ->
  (forall v, In v (domains s y) -> j < String.length v) ->
  revise cw x y s = Ok (false, s).
Proof.
  intros Hov Hac Hy.
  destruct (revise_total cw x y s) as (b & s' & Hrun).
  { intros i' j' Hov'. rewrite Hov in Hov'. injection Hov' as <- <-.
    split; [|assumption].
    intros w Hw. destruct (Hac w Hw) as (v & c & _ & Hc & _).
    now apply get_some_in_bounds in Hc. }
  destruct (revise_ok cw x y i j b s s' Hov Hrun) as (_ & _ & Hb & Hsame & _).
  destruct b.
  - exfalso. destruct (proj1 Hb eq_refl) as (w & Hw & Hn). apply Hn. now apply Hac.
  - now rewrite Hrun, (Hsame eq_refl).
Qed.

Lemma ac3_loop_fixpoint (fuel : nat) (queue : list (Var * Var)) (s : State) :
  List.length queue <= fuel ->
  (forall X Y, In (X, Y) queue -> revise cw X Y s = Ok (false, s)) ->
  ac3_loop cw fuel queue s = Ok (true, s).
Proof.
  revert fuel; induction queue as [|[X Y] q IH]; intros fuel Hf Hq.
  { destruct fuel; reflexivity. }
  destruct fuel as [|f]; [simpl in Hf; lia|]. simpl.
  unfold bind at 1. rewrite (Hq X Y (or_introl eq_refl)).
  apply IH; [simpl in Hf; lia|]. intros Z W Hin. apply Hq. now right.
Qed.

Lemma ac3_loop_shrinks (fuel : nat) (queue : list (Var * Var)) (s : State)
    (b : bool) (s' : State) :
  ac3_loop cw fuel queue s = Ok (b, s') ->
  (forall v w, In w (domains s' v) -> In w (domains s v))
  /\ assignment s' = assignment s
  /\ (b = false -> exists X, domains s' X = [] /\ domains s X <> []).
Proof.
  revert queue s; induction fuel as [|f IH]; intros [|[X Y] q] s; simpl;
    try discriminate.
  - unfold ret. intros [= <- <-]. repeat split; auto; discriminate.
  - unfold ret. intros [= <- <-]. repeat split; auto; discriminate.
  - unfold bind at 1.
    destruct (revise cw X Y s) as [[rb s1]| |] eqn:Hrev; try discriminate.
    destruct (overlaps cw X Y) as [[i j]|] eqn:Hov.
    + destruct (revise_ok cw X Y i j rb s s1 Hov Hrev)
        as (Hoth & Hdom & _ & Hsame & _ & Hlt & Ha & _).
      assert (Hsub : forall v w, In w (domains s1 v) -> In w (domains s v)).
      { intros v w Hw. destruct (Var_eqb v X) eqn:E.
        - apply Var_eqb_eq in E; subst. now apply Hdom in Hw.
        - now rewrite (Hoth v E) in Hw. }
      assert (Hne : forall v, domains s1 v <> [] -> domains s v <> []).
      { intros v Hv E. destruct (domains s1 v) as [|w l] eqn:E1; [congruence|].
        assert (Hw : In w (domains s v)) by (apply Hsub; rewrite E1; now left).
        rewrite E in Hw. destruct Hw. }
      destruct rb.
      * unfold bind at 1, gets at 1.
        destruct (List.length (domains s1 X) =? 0) eqn:El.
        -- unfold ret. intros [= <- <-]. repeat split; auto.
           exists X. apply Nat.eqb_eq, length_zero_iff_nil in El.
           split; [assumption|].
           specialize (Hlt eq_refl). intros E. rewrite E in Hlt.
           simpl in Hlt. lia.
        -- intros H. apply IH in H. destruct H as (Hsub' & Ha' & He').
           repeat split; auto; [congruence|].
           intros Hb. destruct (He' Hb) as (Z & HZ & HZ1). exists Z. auto.
      * rewrite (Hsame eq_refl). apply IH.
    + rewrite (revise_no_overlap cw X Y s Hov) in Hrev.
      injection Hrev as <- <-. apply IH.
Qed.

End AC3Again.

(** X9.  [ac3] is idempotent: when [ac3()] has returned [True], a second
    [ac3()] on the store it left returns [True] and leaves that store as it
    is (for an overlap table that is symmetric and in which no slot overlaps
    itself). *)
Theorem ac3_idempotent (cw : Crossword) (s s' : State) :
  symmetric_overlaps cw ->
  irreflexive_overlaps cw ->
  ac3 cw None s = Ok (true, s') ->
  ac3 cw None s' = Ok (true, s').
Proof.
  intros Hsym Hirr Hrun.
  assert (Hinv : pending_or_consistent cw [] (domains s')).
  { unfold ac3, bind, gets in Hrun.
    eapply ac3_loop_sound; eauto.
    - intros X Y HXY. now apply in_all_arcs in HXY.
    - intros x y i j Hx Hy Hov. left. apply in_all_arcs.
      split; [assumption|]. apply in_neighbors. eauto. }
  unfold ac3, bind, gets. apply ac3_loop_fixpoint.
  - unfold ac3_fuel. lia.
  - intros X Y HXY. apply in_all_arcs in HXY. destruct HXY as [HX HY].
    apply in_neighbors in HY. destruct HY as (HY & i & j & Hov).
    apply (revise_consistent_arc cw X Y i j); [assumption| |].
    + destruct (Hinv X Y i j HX HY Hov) as [[]|Hac]. exact Hac.
    + intros v Hv.
      destruct (Hinv Y X j i HY HX (Hsym X Y i j HX HY Hov)) as [[]|Hac].
      destruct (Hac v Hv) as (w & c & _ & Hc & _).
      now apply get_some_in_bounds in Hc.
Qed.

Lemma ac3_idempotent_witness :
  ac3 cross_puzzle None cross_start = Ok (true, prepared cross_puzzle)
  /\ ac3 cross_puzzle None (prepared cross_puzzle)
     = Ok (true, prepared cross_puzzle).
Proof.
  assert (Hrun : ac3 cross_puzzle None cross_start
                 = Ok (true, prepared cross_puzzle))
    by (vm_compute; reflexivity).
  split; [exact Hrun|].
  exact (ac3_idempotent cross_puzzle cross_start (prepared cross_puzzle)
           cross_puzzle_symmetric cross_puzzle_irreflexive Hrun).
Defined.

(** X10.  Whatever arcs it is given, [ac3] never puts a word into a domain
    and never touches the assignment; when it returns [False], the store it
    leaves has a slot with an empty domain, and that domain was not empty
    when [ac3] started. *)
Theorem ac3_only_removes_words (cw : Crossword)
    (arcs : option (list (Var * Var))) (s : State) (b : bool) (s' : State) :
  ac3 cw arcs s = Ok (b, s') ->
  (forall v w, In w (domains s' v) -> In w (domains s v))
  /\ assignment s' = assignment s
  /\ (b = false -> exists X, domains s' X = [] /\ domains s X <> []).
Proof.
  unfold ac3, bind, gets. apply ac3_loop_shrinks.
Qed.

Lemma ac3_only_removes_words_witness :
  ac3 clash_puzzle None
      (final_state (init clash_puzzle)
         (enforce_node_consistency clash_puzzle (init clash_puzzle)))
  = Ok (false, prepared clash_puzzle)
  /\ exists X, domains (prepared clash_puzzle) X = []
               /\ domains (final_state (init clash_puzzle)
                             (enforce_node_consistency clash_puzzle
                                (init clash_puzzle))) X <> [].
Proof.
  assert (Hrun : ac3 clash_puzzle None
                   (final_state (init clash_puzzle)
                      (enforce_node_consistency clash_puzzle (init clash_puzzle)))
                 = Ok (false, prepared clash_puzzle))
    by (vm_compute; reflexivity).
  split; [exact Hrun|].
  exact (proj2 (proj2 (ac3_only_removes_words clash_puzzle None _ false _ Hrun))
           eq_refl).
Defined.

(** X11.  The loop of [ac3] ends: started without arcs, or with arcs that
    leave slots of the puzzle, it takes at most (number of starting arcs) +
    (number of words in the domains of the slots) x (number of slots) arcs
    from its queue, the budget [ac3_fuel] of the model. *)
Theorem ac3_terminates (cw : Crossword) (arcs : option (list (Var * Var)))
    (s : State) :
  match arcs with
  | Some l => forall X Y, In (X, Y) l -> In X (variables cw)
  | None => True
  end ->
  ac3 cw arcs s <> OutOfFuel.
Proof.
  intros Harcs. unfold ac3, bind, gets.
  apply ac3_loop_enough_fuel; [|lia].
  destruct arcs as [l|]; [exact Harcs|].
  intros X Y HXY. now apply in_all_arcs in HXY.
Qed.

Lemma ac3_terminates_witness :
  In cross_down (variables cross_puzzle)
  /\ ac3 cross_puzzle (Some [(cross_down, cross_across)]) cross_start
     <> OutOfFuel.
Proof.
  assert (Hin : In cross_down (variables cross_puzzle)) by (simpl; auto).
  split; [exact Hin|].
  apply (ac3_terminates cross_puzzle (Some [(cross_down, cross_across)])).
  intros X Y [[= <- <-]|[]]. exact Hin.
Defined.

(** ** The dictionary of [backtrack] *)

Section Dictionary.

Variable cw : Crossword.

Lemma try_values_result_is_dict (recurse : M (option Assignment)) (var : Var)
    (values : list string) :
  (forall s r s', recurse s = Ok (Some r, s') -> assignment s' = r) ->
  forall s r s',
    try_values cw recurse var values s = Ok (Some r, s') -> assignment s' = r.
Proof.
  intros Hrec. induction values as [|value rest IH]; intros s r s'.
  - cbn. unfold ret. discriminate.
  - rewrite try_values_cons. cbn zeta.
    destruct (consistent cw _) as [[|]| |]; try discriminate.
    + destruct (recurse _) as [[[r2|] s2]| |] eqn:Er; try discriminate.
      * intros [= <- <-]. now apply Hrec in Er.
      * destruct (del_item (assignment s2) var); try discriminate. apply IH.
    + destruct (del_item _ var); try discriminate. apply IH.
Qed.

Lemma backtrack_result_is_dict (depth : nat) (s : State) (r : Assignment)
    (s' : State) :
  backtrack cw depth s = Ok (Some r, s') -> assignment s' = r.
Proof.
  revert s r s'; induction depth as [|depth IH]; intros s r s'.
  - discriminate.
  - rewrite backtrack_S. cbn zeta.
    destruct (assignment_complete cw (assignment s)).
    + now intros [= <- <-].
    + destruct (select_unassigned_variable cw _ _) as [var| |]; try discriminate.
      apply try_values_result_is_dict. exact IH.
Qed.

Hypothesis variables_NoDup : NoDup (variables cw).

Lemma drawn_from_extend (d : Domains) (a : Assignment) (var : Var) (value : string) :
  drawn_from cw d a -> In var (unassigned cw a) -> In value (d var) ->
  drawn_from cw d (a ++ [(var, value)]).
Proof.
  intros [Hk Hd] Hvar Hval. apply in_unassigned in Hvar. destruct Hvar as [Hv Hn].
  split.
  - rewrite map_app. simpl.
    apply (Permutation_NoDup (Permutation_cons_append _ _)).
    now constructor.
  - intros x w Hin. apply in_app_or in Hin.
    destruct Hin as [Hin|[[= <- <-]|[]]]; auto.
Qed.

Lemma try_values_drawn (recurse : M (option Assignment)) (var : Var) (n : nat) :
  (forall s r s', recurse s = Ok (r, s') -> domains s' = domains s) ->
  (forall s, NoDup (map fst (assignment s)) ->
             List.length (unassigned cw (assignment s)) < n ->
             runs cw recurse s) ->
  (forall s r s', drawn_from cw (domains s) (assignment s) ->
                  List.length (unassigned cw (assignment s)) < n ->
                  recurse s = Ok (Some r, s') -> drawn_from cw (domains s) r) ->
  forall values s r s',
    drawn_from cw (domains s) (assignment s) ->
    In var (unassigned cw (assignment s)) ->
    List.length (unassigned cw (assignment s)) <= n ->
    (forall value, In value values -> In value (domains s var)) ->
    try_values cw recurse var values s = Ok (Some r, s') ->
    drawn_from cw (domains s) r.
Proof.
  intros Hframe Hruns Hrec.
  induction values as [|value rest IH]; intros s r s' Hdr Hvar Hm Hvals.
  - cbn. unfold ret. discriminate.
  - assert (Hfresh : in_assignment (assignment s) var = false).
    { apply in_unassigned in Hvar. rewrite in_assignment_mem.
      now apply mem_not_In. }
    assert (Hval : In value (domains s var)) by (apply Hvals; now left).
    assert (Hrest : forall v, In v rest -> In v (domains s var))
      by (intros v Hv; apply Hvals; now right).
    rewrite try_values_cons. cbn zeta.
    rewrite (set_item_fresh _ _ value Hfresh).
    rewrite (del_item_fresh _ _ value Hfresh).
    set (a := assignment s) in *.
    set (s1 := mkState (domains s) (a ++ [(var, value)]) (backtrack_calls s)).
    assert (Hdr1 : drawn_from cw (domains s1) (assignment s1))
      by (cbn; now apply drawn_from_extend).
    assert (Hm1 : List.length (unassigned cw (assignment s1)) < n).
    { cbn. pose proof (unassigned_shrinks cw a var value Hvar). lia. }
    assert (IHs : forall s3, domains s3 = domains s -> assignment s3 = a ->
                    try_values cw recurse var rest s3 = Ok (Some r, s') ->
                    drawn_from cw (domains s) r).
    { intros s3 Hd Ha H. rewrite <- Hd.
      apply (IH s3 r s'); rewrite ?Ha, ?Hd; auto. }
    destruct (consistent cw (a ++ [(var, value)])) as [[|]| |];
      try discriminate.
    + destruct (Hruns s1 (proj1 Hdr1) Hm1) as (_ & H2 & _).
      destruct (recurse s1) as [[[r2|] s2]| |] eqn:Er; try discriminate.
      * intros [= <- <-]. apply (Hrec s1 r2 s2 Hdr1 Hm1 Er).
      * rewrite (H2 s2 eq_refl). cbn [assignment s1].
        rewrite (del_item_fresh _ _ value Hfresh).
        apply IHs; [cbn; apply (Hframe s1 None s2 Er)|reflexivity].
    + apply IHs; reflexivity.
Qed.

Lemma backtrack_drawn (depth : nat) (s : State) (r : Assignment) (s' : State) :
  drawn_from cw (domains s) (assignment s) ->
  List.length (unassigned cw (assignment s)) < depth ->
  backtrack cw depth s = Ok (Some r, s') ->
  drawn_from cw (domains s) r.
Proof.
  revert s r s'; induction depth as [|depth IH]; intros s r s' Hdr Hm; [lia|].
  rewrite backtrack_S. cbn zeta.
  set (s0 := mkState (domains s) (assignment s) (S (backtrack_calls s))).
  destruct (assignment_complete cw (assignment s)).
  - now intros [= <- <-].
  - destruct (select_unassigned_variable cw s0 (assignment s)) as [var| |] eqn:Es;
      try discriminate.
    apply (select_unassigned cw s0 _ var variables_NoDup (proj1 Hdr)) in Es.
    intros H.
    apply (try_values_drawn (backtrack cw depth) var depth) with (s := s0) in H;
      try assumption.
    + intros s1 r1 s1' H1. now apply backtrack_frame in H1.
    + intros s1 Hk1 Hm1. now apply backtrack_runs.
    + cbn. lia.
    + intros value Hv.
      apply (Permutation_in _
               (Permutation_sym (order_domain_values_perm cw s0 var _))) in Hv.
      exact Hv.
Qed.

End Dictionary.

(** X12.  The dictionary passed to [backtrack] is what the caller gets back:
    when the call returns an assignment, the dictionary holds exactly that
    assignment; when it returns [None], the dictionary is as it was before
    the call (every tentative entry has been deleted again). *)
Theorem backtrack_dictionary_after_call (cw : Crossword) (depth : nat)
    (s : State) (r : option Assignment) (s' : State) :
  NoDup (variables cw) ->
  NoDup (map fst (assignment s)) ->
  List.length (unassigned cw (assignment s)) < depth ->
  backtrack cw depth s = Ok (r, s') ->
  assignment s' = match r with Some res => res | None => assignment s end.
Proof.
  intros Hv Hk Hm Hrun. destruct r as [res|].
  - now apply backtrack_result_is_dict in Hrun.
  - destruct (backtrack_runs cw Hv depth s Hk Hm) as (_ & H2 & _). now apply H2.
Qed.

Lemma backtrack_dictionary_after_call_witness :
  backtrack clash_puzzle 3 clash_down_assigned
  = Ok (None,
        final_state (init clash_puzzle)
          (backtrack clash_puzzle 3 clash_down_assigned))
  /\ assignment
       (final_state (init clash_puzzle)
          (backtrack clash_puzzle 3 clash_down_assigned))
     = [(cross_down, "ABC")].
Proof.
  assert (Hrun : backtrack clash_puzzle 3 clash_down_assigned
                 = Ok (None,
                       final_state (init clash_puzzle)
                         (backtrack clash_puzzle 3 clash_down_assigned)))
    by (vm_compute; reflexivity).
  split; [exact Hrun|].
  assert (Hv : NoDup (variables clash_puzzle)) by nodup_slots.
  assert (Hk : NoDup (map fst (assignment clash_down_assigned)))
    by nodup_slots.
  assert (Hm : List.length (unassigned clash_puzzle
                              (assignment clash_down_assigned)) < 3)
    by (vm_compute; lia).
  exact (backtrack_dictionary_after_call clash_puzzle 3 clash_down_assigned
           None _ Hv Hk Hm Hrun).
Defined.

(** X13.  An assignment returned by [solve()] has every slot of the puzzle
    as a key, once, and the word of each slot is a word of the vocabulary
    that is still in the slot's domain after consistency enforcement. *)
Theorem solve_assigns_every_slot_from_its_domain (cw : Crossword)
    (r : Assignment) (s' : State) :
  NoDup (variables cw) ->
  solve cw (init cw) = Ok (Some r, s') ->
  NoDup (map fst r)
  /\ (forall v, In v (variables cw) <-> In v (map fst r))
  /\ (forall x w, In (x, w) r -> In w (domains s' x) /\ In w (words cw)).
Proof.
  intros Hv. unfold solve. unfold bind at 1.
  destruct (enforce_node_consistency_spec cw (init cw))
    as (s1 & Henf & Hdom1 & _).
  rewrite Henf. unfold bind at 1.
  destruct (ac3 cw None s1) as [[b s2]| |] eqn:Hac; try discriminate.
  unfold bind at 1, set_assignment at 1.
  set (s3 := mkState (domains s2) [] (backtrack_calls s2)).
  intros Hrun.
  assert (Hdr : drawn_from cw (domains s3) (assignment s3)).
  { split; [constructor|intros x w []]. }
  assert (Hm : List.length (unassigned cw (assignment s3))
               < S (List.length (variables cw))).
  { unfold unassigned.
    pose proof (filter_length_le (fun v => negb (in_assignment (assignment s3) v))
                  (variables cw)). lia. }
  pose proof (backtrack_drawn cw Hv _ s3 r s' Hdr Hm Hrun) as [Hk Hd].
  pose proof (backtrack_sound cw _ s3 r s' Hrun) as [Hc _].
  pose proof (backtrack_frame cw _ s3 (Some r) s' Hrun) as [Hfr _].
  assert (Hincl : incl (map fst r) (variables cw)).
  { intros x Hx. apply in_map_iff in Hx. destruct Hx as ([x' w] & <- & Hin).
    now apply Hd in Hin. }
  split; [exact Hk|]. split.
  - intros v. split; [|apply Hincl].
    apply (NoDup_length_incl Hk); [|exact Hincl].
    unfold assignment_complete in Hc. apply Nat.eqb_eq in Hc.
    rewrite length_map. lia.
  - intros x w Hin. destruct (Hd x w Hin) as [_ Hw]. cbn in Hw.
    split; [now rewrite Hfr|].
    destruct (ac3_loop_shrinks cw _ _ s1 b s2 Hac) as (Hsub & _).
    apply Hsub, Hdom1 in Hw. simpl in Hw. tauto.
Qed.

Lemma solve_assigns_every_slot_from_its_domain_witness :
  solve cross_puzzle (init cross_puzzle)
  = Ok (Some cross_solution,
        final_state (init cross_puzzle) (solve cross_puzzle (init cross_puzzle)))
  /\ NoDup (map fst cross_solution)
  /\ (forall v, In v (variables cross_puzzle) <-> In v (map fst cross_solution)).
Proof.
  assert (Hrun : solve cross_puzzle (init cross_puzzle)
                 = Ok (Some cross_solution,
                       final_state (init cross_puzzle)
                         (solve cross_puzzle (init cross_puzzle))))
    by (vm_compute; reflexivity).
  split; [exact Hrun|].
  assert (Hv : NoDup (variables cross_puzzle)) by nodup_slots.
  destruct (solve_assigns_every_slot_from_its_domain cross_puzzle
              cross_solution _ Hv Hrun) as (H1 & H2 & _).
  split; [exact H1|exact H2].
Defined.

(** ** Completeness of the search *)

Lemma In_lookup (a : Assignment) (x : Var) (w : string) :
  NoDup (map fst a) -> In (x, w) a -> lookup a x = Some w.
Proof.
  induction a as [|[k v] a IH]; simpl; [tauto|].
  intros Hnd Hin. inversion Hnd as [|? ? Hk Hnd']; subst.
  destruct Hin as [[= -> ->]|Hin].
  - now rewrite Var_eqb_refl.
  - destruct (Var_eqb k x) eqn:E; [|now apply IH].
    apply Var_eqb_eq in E. subst k. exfalso. apply Hk.
    apply in_map_iff. exists (x, w). auto.
Qed.

Lemma NoDup_map_incl {A B : Type} (f : A -> B) (l l' : list A) :
  NoDup (map f l) -> NoDup l' -> incl l' l -> NoDup (map f l').
Proof.
  intros Hl. induction l' as [|x l' IH]; simpl; intros Hnd Hincl; [constructor|].
  inversion Hnd as [|? ? Hx Hnd']; subst. constructor.
  - intros Hin. apply in_map_iff in Hin. destruct Hin as (y & Hfy & Hy).
    assert (Hxl : In x l) by (apply Hincl; now left).
    assert (Hyl : In y l) by (apply Hincl; now right).
    assert (Hxy : y = x).
    { clear - Hl Hfy Hxl Hyl. induction l as [|z l IHl]; [destruct Hxl|].
      simpl in Hl. inversion Hl as [|? ? Hz Hl']; subst.
      destruct Hxl as [->|Hxl], Hyl as [->|Hyl]; auto.
      - exfalso. apply Hz. rewrite <- Hfy. now apply in_map.
      - exfalso. apply Hz. rewrite Hfy. now apply in_map. }
    subst y. contradiction.
  - apply IH; [assumption|]. intros y Hy. apply Hincl. now right.
Qed.

Lemma valid_consistent (cw : Crossword) (a : Assignment) :
  valid_assignment cw a -> consistent cw a = Ok true.
Proof.
  intros (Hnd & Hlen & Hov). unfold consistent.
  apply consistent_loop_complete; [exact Hnd|].
  intros x w Hin. split; [now apply Hlen|].
  apply check_neighbors_complete. intros y wy Hy Hl.
  pose proof Hy as Hy'. apply in_neighbors in Hy'.
  destruct Hy' as (_ & i & j & Ho).
  destruct (Hov x y w wy i j Hin Hy Hl Ho) as (c & Hi & Hj).
  exists i, j, c. auto.
Qed.

Lemma sub_assignment_valid (cw : Crossword) (sol a : Assignment) :
  NoDup (map fst sol) -> valid_assignment cw sol ->
  NoDup (map fst a) -> incl a sol ->
  valid_assignment cw a.
Proof.
  intros Hks (Hnd & Hlen & Hov) Hka Hincl. split; [|split].
  - apply (NoDup_map_incl snd sol a Hnd); [|assumption].
    now apply (NoDup_map_inv fst).
  - intros x w Hin. apply Hlen. now apply Hincl.
  - intros x y wx wy i j Hx Hy Hl Ho.
    apply (Hov x y wx wy i j); auto.
    apply In_lookup; [assumption|]. apply Hincl. now apply lookup_In.
Qed.

Section Completeness.

Variable cw : Crossword.
Variable sol : Assignment.

Hypothesis variables_NoDup : NoDup (variables cw).

Lemma solution_word (d : Domains) (v : Var) :
  is_solution cw d sol -> In v (variables cw) ->
  exists w, In (v, w) sol /\ In w (d v).
Proof.
  intros (_ & Hkeys & _ & Hd) Hv. apply Hkeys in Hv.
  apply in_map_iff in Hv. destruct Hv as ([v' w] & Hfst & Hin).
  simpl in Hfst. subst v'. exists w. split; [assumption|now apply Hd].
Qed.

Lemma try_values_finds (recurse : M (option Assignment)) (var : Var) (n : nat) :
  (forall s r s', recurse s = Ok (r, s') -> domains s' = domains s) ->
  (forall s, NoDup (map fst (assignment s)) ->
             List.length (unassigned cw (assignment s)) < n ->
             runs cw recurse s) ->
  (forall s, NoDup (map fst (assignment s)) -> incl (assignment s) sol ->
             is_solution cw (domains s) sol ->
             List.length (unassigned cw (assignment s)) < n ->
             forall s', recurse s <> Ok (None, s')) ->
  forall values s w0,
    NoDup (map fst (assignment s)) -> incl (assignment s) sol ->
    is_solution cw (domains s) sol ->
    In var (unassigned cw (assignment s)) ->
    List.length (unassigned cw (assignment s)) <= n ->
    In (var, w0) sol -> In w0 values ->
    forall s', try_values cw recurse var values s <> Ok (None, s').
Proof.
  intros Hframe Hruns Hrec.
  induction values as [|value rest IH];
    intros s w0 Hk Hincl Hsol Hvar Hm Hw0 Hin s'; [destruct Hin|].
  assert (Hfresh : in_assignment (assignment s) var = false).
  { apply in_unassigned in Hvar. rewrite in_assignment_mem.
    now apply mem_not_In. }
  rewrite try_values_cons. cbn zeta.
  rewrite (set_item_fresh _ _ value Hfresh).
  rewrite (del_item_fresh _ _ value Hfresh).
  set (a := assignment s) in *.
  set (s1 := mkState (domains s) (a ++ [(var, value)]) (backtrack_calls s)).
  assert (Hk1 : NoDup (map fst (assignment s1))).
  { cbn. rewrite map_app. simpl.
    apply (Permutation_NoDup (Permutation_cons_append _ _)).
    constructor; [|assumption]. now apply in_unassigned in Hvar. }
  assert (Hm1 : List.length (unassigned cw (assignment s1)) < n).
  { cbn. pose proof (unassigned_shrinks cw a var value Hvar). lia. }
  assert (IHs : forall s3, domains s3 = domains s -> assignment s3 = a ->
                  In w0 rest ->
                  try_values cw recurse var rest s3 <> Ok (None, s')).
  { intros s3 Hd Ha Hr. apply (IH s3 w0); rewrite ?Ha, ?Hd; auto. }
  destruct (string_dec value w0) as [->|Hne].
  - (* the word of the solution *)
    assert (Hincl1 : incl (a ++ [(var, w0)]) sol).
    { intros e He. apply in_app_or in He. destruct He as [He|[<-|[]]]; auto. }
    destruct Hsol as (Hks & Hkeys & Hvalid & Hd).
    rewrite (valid_consistent cw (a ++ [(var, w0)])
               (sub_assignment_valid cw sol (a ++ [(var, w0)])
                  Hks Hvalid Hk1 Hincl1)).
    pose proof (Hrec s1 Hk1 Hincl1
                  (conj Hks (conj Hkeys (conj Hvalid Hd))) Hm1) as Hnot.
    destruct (recurse s1) as [[[r2|] s2]| |] eqn:Er; try discriminate.
    exfalso. now apply (Hnot s2).
  - assert (Hr : In w0 rest) by (destruct Hin as [?|?]; [congruence|assumption]).
    destruct (consistent cw (a ++ [(var, value)])) as [[|]| |];
      try discriminate.
    + destruct (Hruns s1 Hk1 Hm1) as (_ & H2 & _).
      destruct (recurse s1) as [[[r2|] s2]| |] eqn:Er; try discriminate.
      rewrite (H2 s2 eq_refl). cbn [assignment s1].
      rewrite (del_item_fresh _ _ value Hfresh).
      apply IHs; [cbn; apply (Hframe s1 None s2 Er)|reflexivity|assumption].
    + apply IHs; [reflexivity|reflexivity|assumption].
Qed.

Lemma backtrack_finds (depth : nat) (s : State) :
  NoDup (map fst (assignment s)) -> incl (assignment s) sol ->
  is_solution cw (domains s) sol ->
  List.length (unassigned cw (assignment s)) < depth ->
  forall s', backtrack cw depth s <> Ok (None, s').
Proof.
  revert s; induction depth as [|depth IH]; intros s Hk Hincl Hsol Hm s'; [lia|].
  rewrite backtrack_S. cbn zeta.
  set (s0 := mkState (domains s) (assignment s) (S (backtrack_calls s))).
  destruct (assignment_complete cw (assignment s)); [discriminate|].
  destruct (select_unassigned_variable cw s0 (assignment s)) as [var| |] eqn:Es;
    try discriminate.
  apply (select_unassigned cw s0 _ var variables_NoDup Hk) in Es.
  pose proof Es as Hv. apply in_unassigned in Hv. destruct Hv as [Hv _].
  destruct (solution_word (domains s) var Hsol Hv) as (w0 & Hw0 & Hd0).
  apply (try_values_finds (backtrack cw depth) var depth) with (w0 := w0);
    try assumption.
  - intros s1 r s1' H1. now apply backtrack_frame in H1.
  - intros s1 Hk1 Hm1. now apply backtrack_runs.
  - cbn. lia.
  - apply (Permutation_in _ (order_domain_values_perm cw s0 var _)). exact Hd0.
Qed.

Hypothesis overlaps_in_bounds : in_bounds_overlaps cw.

Lemma backtrack_complete (depth : nat) (s : State) :
  node_consistent cw (domains s) ->
  NoDup (map fst (assignment s)) -> incl (assignment s) sol ->
  is_solution cw (domains s) sol ->
  List.length (unassigned cw (assignment s)) < depth ->
  exists r s', backtrack cw depth s = Ok (Some r, s').
Proof.
  intros Hn Hk Hincl Hsol Hm.
  destruct (backtrack_runs cw variables_NoDup depth s Hk Hm) as (_ & _ & H3).
  destruct H3 as (r & s' & Hrun & _).
  { destruct Hsol as (Hks & Hkeys & (_ & Hlen & _) & _).
    split; [assumption|]. split; [assumption|]. split.
    - intros x Hx. apply in_map_iff in Hx. destruct Hx as ([x' w] & <- & Hin).
      apply Hkeys. apply in_map_iff. exists (x', w). auto.
    - intros x w Hin. apply Hlen. now apply Hincl. }
  destruct r as [r|]; [eauto|].
  exfalso. now apply (backtrack_finds depth s Hk Hincl Hsol Hm s').
Qed.

(** [ac3] keeps the words of a solution. *)
Lemma ac3_loop_keeps_solution (fuel : nat) (queue : list (Var * Var))
    (s : State) (b : bool) (s' : State) :
  (forall X Y, In (X, Y) queue -> In X (variables cw) /\ In Y (variables cw)) ->
  is_solution cw (domains s) sol ->
  ac3_loop cw fuel queue s = Ok (b, s') ->
  is_solution cw (domains s') sol /\ b = true.
Proof.
  revert queue s; induction fuel as [|f IH]; intros [|[X Y] q] s Hq Hsol; simpl;
    try discriminate.
  - unfold ret. intros [= <- <-]. auto.
  - unfold ret. intros [= <- <-]. auto.
  - destruct (Hq X Y (or_introl eq_refl)) as [HX HY].
    assert (Hq' : forall Z W, In (Z, W) q ->
                    In Z (variables cw) /\ In W (variables cw))
      by (intros Z W Hin; apply Hq; now right).
    unfold bind at 1.
    destruct (revise cw X Y s) as [[rb s1]| |] eqn:Hrev; try discriminate.
    destruct (overlaps cw X Y) as [[i j]|] eqn:Hov.
    + destruct (revise_ok cw X Y i j rb s s1 Hov Hrev)
        as (Hoth & Hdom & _ & Hsame & _).
      assert (Hsol1 : is_solution cw (domains s1) sol).
      { destruct Hsol as (Hks & Hkeys & Hvalid & Hd).
        split; [assumption|]. split; [assumption|]. split; [assumption|].
        intros x w Hin. destruct (Var_eqb x X) eqn:E.
        - apply Var_eqb_eq in E. subst x. apply Hdom.
          split; [now apply Hd|].
          destruct (solution_word (domains s) Y
                      (conj Hks (conj Hkeys (conj Hvalid Hd))) HY)
            as (wy & Hwy & Hdy).
          destruct Hvalid as (_ & _ & Hagree).
          destruct (Hagree X Y w wy i j Hin) as (c & Hc1 & Hc2); auto.
          + apply in_neighbors. split; [assumption|eauto].
          + now apply In_lookup.
          + exists wy, c. auto.
        - rewrite (Hoth x E). now apply Hd. }
      destruct rb.
      * unfold bind at 1, gets at 1.
        destruct (List.length (domains s1 X) =? 0) eqn:El.
        -- exfalso. apply Nat.eqb_eq, length_zero_iff_nil in El.
           destruct (solution_word (domains s1) X Hsol1 HX) as (w & _ & Hw).
           rewrite El in Hw. destruct Hw.
        -- apply IH; [|assumption].
           intros Z W Hin. apply in_app_or in Hin. destruct Hin as [Hin|Hin].
           ++ now apply Hq'.
           ++ apply in_arcs_into in Hin. destruct Hin as (-> & HZ & _).
              apply in_neighbors in HZ. tauto.
      * rewrite (Hsame eq_refl). now apply IH.
    + rewrite (revise_no_overlap cw X Y s Hov) in Hrev.
      injection Hrev as <- <-. now apply IH.
Qed.

End Completeness.

(** X14.  [ac3()] never removes a word of a solution: when the store holds a
    solution (a valid assignment of one word from its domain to every slot)
    and [ac3()] returns, it returns [True] and the store still holds that
    solution. *)
Theorem ac3_keeps_solutions (cw : Crossword) (sol : Assignment)
    (s : State) (b : bool) (s' : State) :
  is_solution cw (domains s) sol ->
  ac3 cw None s = Ok (b, s') ->
  is_solution cw (domains s') sol /\ b = true.
Proof.
  intros Hsol. unfold ac3, bind, gets.
  apply ac3_loop_keeps_solution; [|assumption].
  intros X Y HXY. apply in_all_arcs in HXY. destruct HXY as [HX HY].
  apply in_neighbors in HY. tauto.
Qed.

(** X15.  The search is complete: on a node-consistent store that holds a
    solution extending the assignment in the dictionary, [backtrack] returns
    an assignment, not [None] (the puzzle has distinct slots and overlap
    offsets within its slots). *)
Theorem backtrack_finds_an_assignment (cw : Crossword) (sol : Assignment)
    (depth : nat) (s : State) :
  NoDup (variables cw) ->
  in_bounds_overlaps cw ->
  node_consistent cw (domains s) ->
  NoDup (map fst (assignment s)) ->
  incl (assignment s) sol ->
  is_solution cw (domains s) sol ->
  List.length (unassigned cw (assignment s)) < depth ->
  exists r s', backtrack cw depth s = Ok (Some r, s').
Proof.
  intros Hv Hb Hn Hk Hincl Hsol Hm. now apply (backtrack_complete cw sol).
Qed.

(** X16.  [solve()] is complete: when the vocabulary allows a solution (a
    valid assignment of one vocabulary word to every slot), [solve()]
    returns an assignment, not [None]. *)
Theorem solve_finds_an_assignment (cw : Crossword) (sol : Assignment) :
  NoDup (variables cw) ->
  in_bounds_overlaps cw ->
  is_solution cw (fun _ => words cw) sol ->
  exists r s', solve cw (init cw) = Ok (Some r, s').
Proof.
  intros Hv Hb Hsol.
  destruct (enforce_node_consistency_spec cw (init cw))
    as (s1 & Henf & Hdom1 & _).
  assert (Hn1 : node_consistent cw (domains s1)).
  { intros x w Hx Hw. apply Hdom1 in Hw. tauto. }
  assert (Hsol1 : is_solution cw (domains s1) sol).
  { destruct Hsol as (Hks & Hkeys & Hvalid & Hd).
    split; [assumption|]. split; [assumption|]. split; [assumption|].
    intros x w Hin. apply Hdom1. simpl. split; [exact (Hd x w Hin)|].
    intros _. destruct Hvalid as (_ & Hlen & _). now apply Hlen. }
  destruct (ac3_total cw Hb s1 Hn1) as (b & s2 & Hac & Hsub & _).
  assert (Hn2 : node_consistent cw (domains s2)).
  { intros x w Hx Hw. apply Hn1; auto. }
  assert (Hsol2 : is_solution cw (domains s2) sol).
  { unfold ac3, bind, gets in Hac.
    eapply (ac3_loop_keeps_solution cw sol); [|exact Hsol1|exact Hac].
    intros X Y HXY. apply in_all_arcs in HXY. destruct HXY as [HX HY].
    apply in_neighbors in HY. tauto. }
  set (s3 := mkState (domains s2) [] (backtrack_calls s2)).
  destruct (backtrack_complete cw sol Hv Hb (S (List.length (variables cw))) s3)
    as (r & s' & Hrun); try assumption.
  - constructor.
  - intros e [].
  - unfold unassigned.
    pose proof (filter_length_le (fun v => negb (in_assignment (assignment s3) v))
                  (variables cw)). lia.
  - exists r, s'. unfold solve. unfold bind at 1. rewrite Henf.
    unfold bind at 1. rewrite Hac.
    unfold bind at 1, set_assignment at 1. exact Hrun.
Qed.

Lemma cross_solution_is_solution (d : Domains) :
  In "AAB" (d cross_across) -> In "BAC" (d cross_down) ->
  is_solution cross_puzzle d cross_solution.
Proof.
  intros Ha Hd. split; [nodup_slots|]. split; [|split].
  - intros v. simpl. tauto.
  - apply consistent_valid. vm_compute. reflexivity.
  - intros x w [[= <- <-]|[[= <- <-]|[]]]; assumption.
Defined.

Lemma ac3_keeps_solutions_witness :
  is_solution cross_puzzle (domains cross_start) cross_solution
  /\ ac3 cross_puzzle None cross_start = Ok (true, prepared cross_puzzle)
  /\ is_solution cross_puzzle (domains (prepared cross_puzzle)) cross_solution.
Proof.
  assert (Hsol : is_solution cross_puzzle (domains cross_start) cross_solution).
  { apply cross_solution_is_solution; vm_compute; auto. }
  assert (Hrun : ac3 cross_puzzle None cross_start
                 = Ok (true, prepared cross_puzzle))
    by (vm_compute; reflexivity).
  split; [exact Hsol|]. split; [exact Hrun|].
  exact (proj1 (ac3_keeps_solutions cross_puzzle cross_solution cross_start
                  true (prepared cross_puzzle) Hsol Hrun)).
Defined.

Lemma backtrack_finds_an_assignment_witness :
  exists r s', backtrack cross_puzzle 3 (prepared cross_puzzle) = Ok (Some r, s').
Proof.
  apply (backtrack_finds_an_assignment cross_puzzle cross_solution 3
           (prepared cross_puzzle)).
  - nodup_slots.
  - exact cross_puzzle_in_bounds.
  - exact cross_prepared_node_consistent.
  - constructor.
  - intros e [].
  - apply cross_solution_is_solution; vm_compute; auto.
  - vm_compute. lia.
Defined.

Lemma solve_finds_an_assignment_witness :
  exists r s', solve cross_puzzle (init cross_puzzle) = Ok (Some r, s').
Proof.
  apply (solve_finds_an_assignment cross_puzzle cross_solution).
  - nodup_slots.
  - exact cross_puzzle_in_bounds.
  - apply cross_solution_is_solution; simpl; auto.
Defined.

(** ** [letter_grid] *)

Lemma list_set_spec {A : Type} (l : list A) (n : nat) (x : A) :
  n < List.length l ->
  exists l',
    list_set l n x = Ok l'
    /\ List.length l' = List.length l
    /\ (forall m, nth_error l' m = if m =? n then Some x else nth_error l m)
    /\ (forall y, In y l' -> y = x \/ In y l).
Proof.
  revert n; induction l as [|y l IH]; intros n Hn; simpl in Hn; [lia|].
  destruct n as [|n]; simpl.
  - exists (x :: l). repeat split; auto.
    + intros [|m]; reflexivity.
    + intros z [<-|Hz]; auto.
  - destruct (IH n) as (l' & Hrun & Hlen & Hnth & Hin); [lia|].
    rewrite Hrun. simpl. exists (y :: l'). repeat split; simpl; auto.
    + intros [|m]; [reflexivity|]. apply Hnth.
    + intros z [<-|Hz]; auto. destruct (Hin z Hz); auto.
Qed.

Lemma list_set_raise {A : Type} (l : list A) (n : nat) (x : A) :
  List.length l <= n -> list_set l n x = Raise IndexError.
Proof.
  revert n; induction l as [|y l IH]; intros n Hn; simpl in *; [reflexivity|].
  destruct n as [|n]; [lia|]. rewrite IH by lia. reflexivity.
Qed.

Lemma cell_eqb_eq (c1 c2 : nat * nat) : cell_eqb c1 c2 = true <-> c1 = c2.
Proof.
  destruct c1 as [i1 j1], c2 as [i2 j2]. unfold cell_eqb. simpl.
  rewrite andb_true_iff, !Nat.eqb_eq. split; [intros [-> ->]|intros [= -> ->]]; auto.
Qed.

Section LetterGrid.

Variables height width : nat.

Lemma set_cell_spec (g : Grid) (i j : nat) (c : ascii) :
  has_size height width g -> i < height -> j < width ->
  exists g',
    set_cell g i j c = Ok g'
    /\ has_size height width g'
    /\ forall i' j', grid_get g' i' j'
                     = if cell_eqb (i', j') (i, j) then Some (Some c)
                       else grid_get g i' j'.
Proof.
  intros [Hh Hw] Hi Hj. unfold set_cell.
  destruct (nth_error g i) as [row|] eqn:Erow.
  2:{ apply nth_error_None in Erow. lia. }
  assert (Hrow : List.length row = width).
  { apply Hw. eapply nth_error_In. exact Erow. }
  destruct (list_set_spec row j (Some c)) as (row' & Hr & Hlr & Hnr & _); [lia|].
  rewrite Hr. simpl.
  destruct (list_set_spec g i row') as (g' & Hg & Hlg & Hng & Hing); [lia|].
  rewrite Hg. exists g'. split; [reflexivity|]. split.
  - split; [lia|]. intros r Hin. destruct (Hing r Hin) as [->|Hin']; [lia|auto].
  - intros i' j'. unfold grid_get, cell_eqb. simpl. rewrite Hng.
    destruct (i' =? i) eqn:Ei; simpl.
    + apply Nat.eqb_eq in Ei. subst i'. rewrite Hnr, Erow.
      destruct (j' =? j); reflexivity.
    + reflexivity.
Qed.

Lemma set_cell_raise (g : Grid) (i j : nat) (c : ascii) :
  has_size height width g -> ~ inside_grid height width (i, j) ->
  set_cell g i j c = Raise IndexError.
Proof.
  intros [Hh Hw] Hout. unfold set_cell, inside_grid in *. simpl in Hout.
  destruct (nth_error g i) as [row|] eqn:Erow; [|reflexivity].
  assert (Hrow : List.length row = width).
  { apply Hw. eapply nth_error_In. exact Erow. }
  assert (Hi : i < height).
  { rewrite <- Hh. apply nth_error_Some. congruence. }
  rewrite list_set_raise by lia. reflexivity.
Qed.

Lemma write_word_painted (v : Var) (word : string) (ks : list nat) (g : Grid) :
  has_size height width g ->
  (forall k, In k ks -> k < String.length word) ->
  painted height width (word_writes v word ks) g (write_word v word ks g).
Proof.
  revert g; induction ks as [|k ks IH]; intros g Hg Hks;
    cbn [write_word word_writes map].
  - left. split; [constructor|]. exists g. auto.
  - destruct (get_in_bounds word k) as [c Hc]; [apply Hks; now left|].
    rewrite Hc. fold (word_writes v word ks).
    assert (Hks' : forall k', In k' ks -> k' < String.length word)
      by (intros k' Hk'; apply Hks; now right).
    destruct (lt_dec (fst (cell v k)) height) as [Hi|Hi];
      [destruct (lt_dec (snd (cell v k)) width) as [Hj|Hj]|].
    + destruct (set_cell_spec g _ _ c Hg Hi Hj) as (g1 & Hset & Hg1 & Hget1).
      rewrite Hset. cbn [rbind].
      destruct (IH g1 Hg1 Hks') as [(Hall & g' & Hrun & Hg' & Hget)|(Hnot & Hrun)].
      * left. split; [constructor; [split; assumption|assumption]|].
        exists g'. split; [assumption|]. split; [assumption|].
        intros i j. rewrite Hget, Hget1. cbn [last_write].
        destruct (last_write (word_writes v word ks) (i, j)); [reflexivity|].
        rewrite <- surjective_pairing.
        destruct (cell_eqb (i, j) (cell v k)); reflexivity.
      * right. split; [|assumption].
        intros H. inversion H; subst. contradiction.
    + right. split.
      * intros H. inversion H as [|? ? [_ Hj'] _]; subst.
        cbn [fst snd] in Hj'. contradiction.
      * rewrite set_cell_raise; [reflexivity|assumption|].
        unfold inside_grid. cbn [fst snd]. tauto.
    + right. split.
      * intros H. inversion H as [|? ? [Hi' _] _]; subst.
        cbn [fst snd] in Hi'. contradiction.
      * rewrite set_cell_raise; [reflexivity|assumption|].
        unfold inside_grid. cbn [fst snd]. tauto.
Qed.

Lemma last_write_app (ws1 ws2 : list ((nat * nat) * option ascii)) (c : nat * nat) :
  last_write (ws1 ++ ws2) c
  = match last_write ws2 c with
    | Some y => Some y
    | None => last_write ws1 c
    end.
Proof.
  induction ws1 as [|[c' x] ws1 IH]; simpl.
  - destruct (last_write ws2 c); reflexivity.
  - rewrite IH. destruct (last_write ws2 c); reflexivity.
Qed.

Lemma write_items_painted (a : Assignment) (g : Grid) :
  has_size height width g ->
  painted height width (all_writes a) g (write_items a g).
Proof.
  revert g; induction a as [|[v word] a IH]; intros g Hg; simpl.
  - left. split; [constructor|]. exists g. auto.
  - destruct (write_word_painted v word (seq 0 (String.length word)) g Hg)
      as [(Hall1 & g1 & Hrun1 & Hg1 & Hget1)|(Hnot1 & Hrun1)].
    { intros k Hk. apply in_seq in Hk. lia. }
    + rewrite Hrun1. simpl.
      destruct (IH g1 Hg1) as [(Hall & g' & Hrun & Hg' & Hget)|(Hnot & Hrun)].
      * left. split; [apply Forall_app; split; assumption|].
        exists g'. split; [assumption|]. split; [assumption|].
        intros i j. rewrite Hget, Hget1, last_write_app.
        destruct (last_write (all_writes a) (i, j)); reflexivity.
      * right. split; [|assumption].
        intros H. apply Forall_app in H. tauto.
    + right. rewrite Hrun1. simpl. split; [|reflexivity].
      intros H. apply Forall_app in H. tauto.
Qed.

Lemma blank_has_size :
  has_size height width (repeat (repeat None width) height).
Proof.
  split; [apply repeat_length|].
  intros row Hrow. apply repeat_spec in Hrow. subst. apply repeat_length.
Qed.

Lemma blank_get (i j : nat) :
  i < height -> j < width ->
  grid_get (repeat (repeat None width) height) i j = Some None.
Proof.
  intros Hi Hj. unfold grid_get.
  rewrite (nth_error_repeat _ Hi). now apply nth_error_repeat.
Qed.

Lemma letter_grid_painted (a : Assignment) :
  painted height width (all_writes a) (repeat (repeat None width) height)
          (letter_grid height width a).
Proof. apply write_items_painted, blank_has_size. Qed.

Lemma in_all_writes (a : Assignment) (c : nat * nat) (x : option ascii) :
  In (c, x) (all_writes a) <->
  exists v word k, In (v, word) a /\ k < String.length word
                   /\ c = cell v k /\ x = String.get k word.
Proof.
  unfold all_writes, word_writes. rewrite in_flat_map. split.
  - intros ([v word] & Hin & Hw). simpl in Hw. apply in_map_iff in Hw.
    destruct Hw as (k & [= <- <-] & Hk). apply in_seq in Hk.
    exists v, word, k. repeat split; auto. lia.
  - intros (v & word & k & Hin & Hk & -> & ->). exists (v, word).
    split; [assumption|]. simpl. apply in_map_iff. exists k.
    split; [reflexivity|]. apply in_seq. lia.
Qed.

Lemma last_write_in (ws : list ((nat * nat) * option ascii)) (c : nat * nat)
    (y : ascii) :
  last_write ws c = Some y -> In (c, Some y) ws.
Proof.
  induction ws as [|[c' x] ws IH]; simpl; [discriminate|].
  destruct (last_write ws c) as [z|].
  - intros [= ->]. right. now apply IH.
  - destruct (cell_eqb c c') eqn:E; [|discriminate].
    apply cell_eqb_eq in E. subst c'. intros ->. now left.
Qed.

Lemma last_write_none (ws : list ((nat * nat) * option ascii)) (c : nat * nat) :
  last_write ws c = None -> forall y, ~ In (c, Some y) ws.
Proof.
  induction ws as [|[c' x] ws IH]; simpl; [tauto|].
  destruct (last_write ws c) as [z|] eqn:E; [discriminate|].
  intros H y [[= -> ->]|Hin].
  - assert (Hc : cell_eqb c c = true) by now apply cell_eqb_eq.
    rewrite Hc in H. discriminate.
  - now apply (IH eq_refl y).
Qed.

End LetterGrid.

(** X17.  The grid [letter_grid] returns has [height] rows of [width]
    cells. *)
Theorem letter_grid_has_size (height width : nat) (a : Assignment) (g : Grid) :
  letter_grid height width a = Ok g -> has_size height width g.
Proof.
  intros Hrun.
  destruct (letter_grid_painted height width a)
    as [(_ & g' & Hg' & Hsize & _)|(_ & Hraise)]; [|congruence].
  rewrite Hrun in Hg'. injection Hg' as ->. exact Hsize.
Qed.

Lemma letter_grid_has_size_witness :
  letter_grid 3 3 cross_solution
  = Ok [[Some "B"%char; None; None];
        [Some "A"%char; Some "A"%char; Some "B"%char];
        [Some "C"%char; None; None]]
  /\ has_size 3 3 [[Some "B"%char; None; None];
                   [Some "A"%char; Some "A"%char; Some "B"%char];
                   [Some "C"%char; None; None]].
Proof.
  assert (Hrun : letter_grid 3 3 cross_solution
                 = Ok [[Some "B"%char; None; None];
                       [Some "A"%char; Some "A"%char; Some "B"%char];
                       [Some "C"%char; None; None]]) by reflexivity.
  split; [exact Hrun|].
  exact (letter_grid_has_size 3 3 cross_solution _ Hrun).
Defined.

(** X18.  [letter_grid] returns a grid when every letter of every assigned
    word falls on a cell of the grid, and raises [IndexError] when some
    letter falls outside. *)
Theorem letter_grid_index_error (height width : nat) (a : Assignment) :
  ((forall v word k, In (v, word) a -> k < String.length word ->
      inside_grid height width (cell v k)) ->
   exists g, letter_grid height width a = Ok g)
  /\ ((exists v word k, In (v, word) a /\ k < String.length word
                        /\ ~ inside_grid height width (cell v k)) ->
      letter_grid height width a = Raise IndexError).
Proof.
  destruct (letter_grid_painted height width a)
    as [(Hall & g' & Hg' & _)|(Hnot & Hraise)].
  - split; [eauto|].
    intros (v & word & k & Hin & Hk & Hout). exfalso. apply Hout.
    apply (proj1 (Forall_forall _ _) Hall (cell v k, String.get k word)).
    apply in_all_writes. exists v, word, k. auto.
  - split; [|intros _; exact Hraise].
    intros Hin. exfalso. apply Hnot. apply Forall_forall.
    intros [c x] Hcx. apply in_all_writes in Hcx.
    destruct Hcx as (v & word & k & Hvw & Hk & -> & _). simpl. eauto.
Qed.

Lemma letter_grid_index_error_witness :
  (exists g, letter_grid 3 3 cross_solution = Ok g)
  /\ letter_grid 3 2 cross_solution = Raise IndexError.
Proof.
  split.
  - apply (proj1 (letter_grid_index_error 3 3 cross_solution)).
    intros v word k [[= <- <-]|[[= <- <-]|[]]] Hk; simpl in Hk;
      destruct k as [|[|[|k]]]; try lia; vm_compute; auto.
  - apply (proj2 (letter_grid_index_error 3 2 cross_solution)).
    exists cross_across, "AAB", 2. split; [simpl; auto|].
    split; [simpl; lia|]. vm_compute. intros [_ H]. lia.
Defined.

(** X19.  When the assigned words agree on the cells they share, the grid
    [letter_grid] returns shows every letter of every assigned word at its
    cell. *)
Theorem letter_grid_shows_every_letter (height width : nat) (a : Assignment)
    (g : Grid) :
  letter_grid height width a = Ok g ->
  agree_on_cells a ->
  forall v word k,
    In (v, word) a -> k < String.length word ->
    grid_get g (fst (cell v k)) (snd (cell v k)) = Some (String.get k word).
Proof.
  intros Hrun Hagree v word k Hin Hk.
  destruct (letter_grid_painted height width a)
    as [(Hall & g' & Hg' & _ & Hget)|(_ & Hraise)]; [|congruence].
  rewrite Hrun in Hg'. injection Hg' as <-.
  rewrite Hget. rewrite <- surjective_pairing.
  destruct (get_in_bounds word k Hk) as [c Hc].
  assert (Hw : In (cell v k, Some c) (all_writes a)).
  { apply in_all_writes. exists v, word, k. auto. }
  destruct (last_write (all_writes a) (cell v k)) as [y|] eqn:El.
  - apply last_write_in in El. apply in_all_writes in El.
    destruct El as (v' & word' & k' & Hin' & Hk' & Hcell & Hy).
    rewrite (Hagree v word k v' word' k' Hin Hin' Hk Hk' Hcell), <- Hy.
    reflexivity.
  - exfalso. exact (last_write_none _ _ El c Hw).
Qed.

Lemma cross_solution_agrees : agree_on_cells cross_solution.
Proof.
  intros v1 w1 k1 v2 w2 k2 H1 H2 Hk1 Hk2 Hc.
  destruct H1 as [[= <- <-]|[[= <- <-]|[]]];
    destruct H2 as [[= <- <-]|[[= <- <-]|[]]];
    simpl in Hk1, Hk2;
    destruct k1 as [|[|[|k1]]]; try lia;
    destruct k2 as [|[|[|k2]]]; try lia;
    vm_compute in Hc; try discriminate; reflexivity.
Defined.

Lemma letter_grid_shows_every_letter_witness :
  grid_get [[Some "B"%char; None; None];
            [Some "A"%char; Some "A"%char; Some "B"%char];
            [Some "C"%char; None; None]]
           (fst (cell cross_down 1)) (snd (cell cross_down 1))
  = Some (String.get 1 "BAC").
Proof.
  apply (letter_grid_shows_every_letter 3 3 cross_solution).
  - reflexivity.
  - exact cross_solution_agrees.
  - simpl. auto.
  - simpl. lia.
Defined.

(** X20.  A cell of the grid that no letter of an assigned word falls on is
    [None] in the grid [letter_grid] returns. *)
Theorem letter_grid_blank_elsewhere (height width : nat) (a : Assignment)
    (g : Grid) (i j : nat) :
  letter_grid height width a = Ok g ->
  i < height -> j < width ->
  (forall v word k, In (v, word) a -> k < String.length word ->
     cell v k <> (i, j)) ->
  grid_get g i j = Some None.
Proof.
  intros Hrun Hi Hj Hfree.
  destruct (letter_grid_painted height width a)
    as [(Hall & g' & Hg' & _ & Hget)|(_ & Hraise)]; [|congruence].
  rewrite Hrun in Hg'. injection Hg' as <-.
  rewrite Hget.
  destruct (last_write (all_writes a) (i, j)) as [y|] eqn:El.
  - apply last_write_in in El. apply in_all_writes in El.
    destruct El as (v & word & k & Hin & Hk & Hcell & _).
    exfalso. apply (Hfree v word k Hin Hk). now rewrite Hcell.
  - now apply blank_get.
Qed.

Lemma letter_grid_blank_elsewhere_witness :
  grid_get [[Some "B"%char; None; None];
            [Some "A"%char; Some "A"%char; Some "B"%char];
            [Some "C"%char; None; None]] 2 2
  = Some None.
Proof.
  apply (letter_grid_blank_elsewhere 3 3 cross_solution).
  - reflexivity.
  - lia.
  - lia.
  - intros v word k [[= <- <-]|[[= <- <-]|[]]] Hk; simpl in Hk;
      destruct k as [|[|[|k]]]; try lia; vm_compute; discriminate.
Defined.

(** ** [assignment_complete] *)

(** X21.  For an assignment whose keys are distinct slots of the puzzle,
    the size comparison of [assignment_complete] answers [True] exactly when
    every slot of the puzzle is a key. *)
Theorem assignment_complete_iff_every_slot_assigned (cw : Crossword)
    (a : Assignment) :
  NoDup (variables cw) ->
  NoDup (map fst a) ->
  incl (map fst a) (variables cw) ->
  (assignment_complete cw a = true <->
   forall v, In v (variables cw) -> In v (map fst a)).
Proof.
  intros Hv Hk Hincl. unfold assignment_complete. rewrite Nat.eqb_eq. split.
  - intros Hlen. apply (NoDup_length_incl Hk); [|exact Hincl].
    rewrite length_map. lia.
  - intros Hall.
    pose proof (NoDup_incl_length Hk Hincl) as H1.
    pose proof (NoDup_incl_length Hv Hall) as H2.
    rewrite length_map in H1, H2. lia.
Qed.

Lemma assignment_complete_iff_every_slot_assigned_witness :
  assignment_complete cross_puzzle cross_solution = true <->
  forall v, In v (variables cross_puzzle) -> In v (map fst cross_solution).
Proof.
  apply (assignment_complete_iff_every_slot_assigned cross_puzzle cross_solution).
  - nodup_slots.
  - nodup_slots.
  - intros v Hv. exact Hv.
Defined.
